(** * Relational export of a concept lattice: [boiler]

    A shallow embedding of [src/python/boiler.py] and the properties of
    its node table, its edge table and its two output files.

    The Python function builds a concept lattice from a CSV file (through
    the [concepts] package), lists its concepts, names each one after its
    intent, resolves the upper neighbours of every concept to positions in
    the list with [list.index], and writes two [pandas] data frames.

    What lives outside the source file is taken as a parameter of the
    development: the loader [Context.fromfile], the equality [==] of the
    concept class, the text [DataFrame.to_csv] produces, and what the
    operating system makes of an attempt to write a file. *)

From stdpp Require Import base option list sorting strings pretty gmap.


(** ** Python values *)

(** Object identity, what Python's [is] compares. *)
Abbreviation oid := nat.

(** A concept object of the lattice: its identity and the three attributes
    the exporter can read.  [upper_neighbors] holds references to other
    concept objects; a reference is the referenced object, so the same
    object reached twice shows the same [obj_id]. *)
#[warnings="-register-all"]
Inductive Concept := mkConcept {
  obj_id : oid;
  intent : list string;
  extent : list string;
  upper_neighbors : list Concept
}.

(** The context object; only its [lattice] is used, as the sequence of
    concepts its iteration yields. *)
Record Context := mkContext { lattice : list Concept }.

(** A raised exception, identified by the name of its class. *)
Record exception := Raise { exc_class : string }.

Definition ValueError : exception := Raise "ValueError".

(** The outcome of a computation that may raise. *)
Definition result (A : Type) : Type := exception + A.

Definition result_bind {A B} (r : result A) (k : A -> result B) : result B :=
  match r with
  | inl e => inl e
  | inr a => k a
  end.

Notation "x <~ r ; k" := (result_bind r (fun x => k))
  (at level 100, r at next level, right associativity, only parsing).

(** A list comprehension whose body may raise: the first exception ends it. *)
Fixpoint comprehension {A B} (f : A -> result B) (l : list A) : result (list B) :=
  match l with
  | [] => inr []
  | a :: l' =>
      b <~ f a;
      bs <~ comprehension f l';
      inr (b :: bs)
  end.

(** [enumerate(l)]: the items paired with their positions, from 0. *)
Definition enumerate {A} (l : list A) : list (nat * A) := imap pair l.

(** [sep.join(l)] on a list of strings. *)
Fixpoint join (sep : string) (l : list string) : string :=
  match l with
  | [] => ""
  | [s] => s
  | s :: rest => s +:+ sep +:+ join sep rest
  end.

(** ** Data frames *)

Inductive cell :=
  | Int (n : nat)
  | Str (s : string).

(** A frame built from a dict of columns: the labelled columns in the
    order of the dict, all of one length. *)
Definition DataFrame := list (string * list cell).

Definition df_columns (df : DataFrame) : list string := fst <$> df.

Fixpoint df_column (df : DataFrame) (label : string) : option (list cell) :=
  match df with
  | [] => None
  | (l, col) :: df' => if decide (l = label) then Some col else df_column df' label
  end.

Definition df_nrows (df : DataFrame) : nat :=
  match df with
  | [] => 0
  | (_, col) :: _ => length col
  end.

(** The rows of a frame: the columns read across, one row per index. *)
Definition df_rows (df : DataFrame) : list (list cell) :=
  foldr (fun (lc : string * list cell) rows => zip_with cons lc.2 rows)
    (replicate (df_nrows df) []) df.

(** ** The file system *)

(** Paths to file contents. *)
Abbreviation FS := (gmap string string).

(** A computation over the file system that may raise; the file system it
    leaves behind is kept also when it raises. *)
Definition io (A : Type) : Type := FS -> FS * result A.

Definition io_bind {A B} (m : io A) (k : A -> io B) : io B :=
  fun fs =>
    match m fs with
    | (fs', inl e) => (fs', inl e)
    | (fs', inr a) => k a fs'
    end.

Definition io_lift {A} (r : result A) : io A := fun fs => (fs, r).

(** What an attempt to write a file comes to: the text is written, or the
    attempt raises, leaving the destination as it was ([None]) or holding
    some text ([Some]), as a write cut short does. *)
Inductive write_outcome :=
  | Written
  | Failed (e : exception) (left : option string).

Notation "x <- m ;; k" := (io_bind m (fun x => k))
  (at level 100, m at next level, right associativity, only parsing).
Notation "m ;;; k" := (io_bind m (fun _ => k))
  (at level 100, right associativity, only parsing).

Section Boiler.

(** [item == value] for two distinct concept objects, as the concept
    class of the lattice package defines it. *)
Variable concept_eq : Concept -> Concept -> bool.

(** [Context.fromfile(csv_filename, frmat='csv')]. *)
Variable Context_fromfile : FS -> string -> result Context.

(** The text [DataFrame.to_csv(..., index = False)] writes for a frame. *)
Variable to_csv : DataFrame -> string.

(** Writing a text at a path of a file system, as the operating system
    decides it: a missing directory, a directory at the path, missing
    permissions or a full disk make it raise. *)
Variable os_write : FS -> string -> string -> write_outcome.

(** The comparison [list.index] makes between a list item and the value
    looked for: the same object, or equal. *)
Definition py_eq (item value : Concept) : bool :=
  bool_decide (obj_id item = obj_id value) || concept_eq item value.

(** [l.index(value)]: the first position holding the value, [ValueError]
    when there is none. *)
Fixpoint list_index (l : list Concept) (value : Concept) : result nat :=
  match l with
  | [] => inl ValueError
  | item :: rest =>
      if py_eq item value then inr 0
      else (i <~ list_index rest value; inr (S i))
  end.

Definition get_concept_name (concept : Concept) : string :=
  let nm := join "; " (intent concept) in
  nm.

Definition concept_names (concept_list : list Concept) : list string :=
  get_concept_name <$> concept_list.

Definition parent_concept_indexes (concept_list : list Concept) (con : Concept)
  : result (list nat) :=
  comprehension (fun c => list_index concept_list c) (upper_neighbors con).

(** The loop over [enumerate(concept_list)], appending to [maps_to_list]. *)
Fixpoint maps_to_list_loop (concept_list : list Concept)
    (items : list (nat * Concept)) (maps_to_list : list (nat * nat))
  : result (list (nat * nat)) :=
  match items with
  | [] => inr maps_to_list
  | (idx, con) :: items' =>
      indexes <~ parent_concept_indexes concept_list con;
      maps_to_list_loop concept_list items'
        (maps_to_list ++ ((fun parent_idx => (idx, parent_idx)) <$> indexes))
  end.

Definition maps_to_list (concept_list : list Concept) : result (list (nat * nat)) :=
  maps_to_list_loop concept_list (enumerate concept_list) [].

Definition concept_df (concept_names : list string) : DataFrame :=
  [ ("id", Int <$> seq 0 (length concept_names));
    ("concept_name", Str <$> concept_names) ].

(** The scalar ["Is a"] is broadcast along the index of the frame. *)
Definition concept_relationship_df (maps_to_list : list (nat * nat)) : DataFrame :=
  [ ("id_1", Int <$> (fst <$> maps_to_list));
    ("relationship", replicate (length maps_to_list) (Str "Is a"));
    ("id_2", Int <$> (snd <$> maps_to_list)) ].

(** [df.to_csv(path, index = False)]: creates or overwrites the file, or
    raises the error of the write. *)
Definition DataFrame_to_csv (df : DataFrame) (path : string) : io unit :=
  fun fs =>
    match os_write fs path (to_csv df) with
    | Written => (<[path := to_csv df]> fs, inr ())
    | Failed e None => (fs, inl e)
    | Failed e (Some text) => (<[path := text]> fs, inl e)
    end.

Definition boiler (csv_filename output_path : string) : io unit :=
  c <- (fun fs => (fs, Context_fromfile fs csv_filename));;
  let concept_list := lattice c in
  let names := concept_names concept_list in
  edges <- io_lift (maps_to_list concept_list);;
  DataFrame_to_csv (concept_df names) (output_path +:+ "concept.csv");;;
  DataFrame_to_csv (concept_relationship_df edges)
    (output_path +:+ "concept_relationship.csv").

End Boiler.

(** The pairs the loop appends for items whose upper neighbours resolved
    to the given positions. *)
Definition edges_of (items : list (nat * Concept)) (indexes : list (list nat))
  : list (nat * nat) :=
  mjoin (zip_with (fun (ic : nat * Concept) ps => pair ic.1 <$> ps) items indexes).

(** ** Node equality *)

(** [==] for a class that defines no [__eq__]: two distinct objects are
    never equal, so [py_eq] is identity. *)
Definition object_eq (item value : Concept) : bool := false.

(** ** The lookup of the specification *)



(** ** Lattices *)

(** The identities of the concepts a list holds. *)
Definition ids (l : list Concept) : list oid := obj_id <$> l.

(** [c] occurs in the enumeration as an object. *)
Definition enumerated (concept_list : list Concept) (c : Concept) : Prop :=
  obj_id c ∈ ids concept_list.

(** A well-formed lattice, as the exporter sees it: every concept is
    enumerated once; the upper neighbours of a concept are themselves
    enumerated, are pairwise distinct and do not include the concept; and
    no enumerated concept compares equal to a different one. *)
Definition well_formed (concept_eq : Concept -> Concept -> bool)
    (concept_list : list Concept) : Prop :=
  NoDup (ids concept_list) ∧
  Forall (fun con =>
    NoDup (ids (upper_neighbors con)) ∧
    (obj_id con ∉ ids (upper_neighbors con)) ∧
    Forall (fun p =>
      enumerated concept_list p ∧
      Forall (fun x => py_eq concept_eq x p = true → obj_id x = obj_id p)
        concept_list)
      (upper_neighbors con))
    concept_list.

#[global] Instance well_formed_dec concept_eq concept_list :
  Decision (well_formed concept_eq concept_list).
Proof. unfold well_formed, enumerated. apply _. Defined.

(** The concept with every extent removed, its own and those of the
    concepts it refers to. *)
Fixpoint erase_extent (c : Concept) : Concept :=
  match c with
  | mkConcept i it _ ups => mkConcept i it [] (erase_extent <$> ups)
  end.

(** Two lattices that agree on the enumeration order, on the intents and on
    the upper neighbours, whatever their extents. *)
Definition agree_up_to_extent (l1 l2 : list Concept) : Prop :=
  erase_extent <$> l1 = erase_extent <$> l2.

(** A node equality that does not read extents. *)
Definition extent_blind (concept_eq : Concept -> Concept -> bool) : Prop :=
  ∀ a b, concept_eq a b = concept_eq (erase_extent a) (erase_extent b).

(** ** Sample lattices *)

Module Sample.

(** Three concepts in a chain, enumerated from the top. *)
Definition top : Concept := mkConcept 100 [] ["x"; "y"; "z"] [].
Definition middle : Concept := mkConcept 101 ["a"] ["x"; "y"] [top].
Definition bottom : Concept := mkConcept 102 ["a"; "b"] ["x"] [middle].
Definition chain : list Concept := [top; middle; bottom].

(** A concept whose upper neighbour is not enumerated. *)
Definition stray : Concept := mkConcept 200 ["s"] [] [].
Definition orphan : Concept := mkConcept 201 ["s"; "t"] [] [stray].
Definition dangling : list Concept := [top; orphan].

(** The chain with other extents. *)
Definition top' : Concept := mkConcept 100 [] ["u"] [].
Definition middle' : Concept := mkConcept 101 ["a"] [] [top'].
Definition bottom' : Concept := mkConcept 102 ["a"; "b"] ["v"; "w"] [middle'].
Definition chain' : list Concept := [top'; middle'; bottom'].

(** A loader that yields a fixed lattice. *)
Definition load (l : list Concept) (fs : FS) (csv_filename : string)
  : result Context := inr (mkContext l).

(** A plain serialisation: the header line, then one line per row, the
    fields separated by commas. *)
Definition cell_text (c : cell) : string :=
  match c with
  | Int n => pretty n
  | Str s => s
  end.
Definition newline : string := String (Ascii.ascii_of_nat 10) "".
Definition render (df : DataFrame) : string :=
  join newline
    (join "," (df_columns df)
     :: ((fun row => join "," (cell_text <$> row)) <$> df_rows df)).

(** A file system that takes every write, and one on which the
    relationship table of the prefix ["out/"] cannot be written. *)
Definition disk (fs : FS) (path text : string) : write_outcome := Written.
Definition OSError : exception := Raise "OSError".
Definition no_relationship (fs : FS) (path text : string) : write_outcome :=
  if decide (path = "out/concept_relationship.csv") then Failed OSError None
  else Written.

End Sample.

(** * Properties *)

(** ** Comprehensions and [join] *)

Lemma comprehension_inr {A B} (f : A → result B) l bs :
  comprehension f l = inr bs ↔ Forall2 (λ a b, f a = inr b) l bs.
Proof.
  revert bs. induction l as [|a l IH]; intros bs; simpl.
  - split.
    + intros [= <-]. constructor.
    + intros H. by inversion H.
  - unfold result_bind. destruct (f a) as [e|b] eqn:Ha.
    + split; [done|]. intros H. inversion H; congruence.
    + destruct (comprehension f l) as [e|bs'] eqn:Hl.
      * split; [done|]. intros H. inversion H as [|? b' ? bs'' Hb Hbs]; subst.
        apply IH in Hbs. done.
      * split.
        -- intros [= <-]. constructor; [done|]. by apply IH.
        -- intros H. inversion H as [|? b' ? bs'' Hb Hbs]; subst.
           apply IH in Hbs. congruence.
Qed.

Lemma comprehension_inl {A B} (f : A → result B) l e :
  comprehension f l = inl e → ∃ a, a ∈ l ∧ f a = inl e.
Proof.
  induction l as [|a l IH]; simpl; [done|].
  unfold result_bind. destruct (f a) as [e'|b] eqn:Ha.
  - intros [= ->]. exists a. split; [left|done].
  - destruct (comprehension f l) as [e'|bs]; [|done].
    intros [= ->]. destruct IH as (a' & Hin & Ha'); [done|].
    exists a'. split; [by right|done].
Qed.

Lemma string_app_assoc (s1 s2 s3 : string) :
  (s1 +:+ s2) +:+ s3 = s1 +:+ s2 +:+ s3.
Proof.
  induction s1 as [|c s1 IH]; [done|].
  change (String c ((s1 +:+ s2) +:+ s3) = String c (s1 +:+ s2 +:+ s3)).
  by rewrite IH.
Qed.

Lemma join_cons sep s s' rest :
  join sep (s :: s' :: rest) = s +:+ sep +:+ join sep (s' :: rest).
Proof. reflexivity. Qed.

Lemma foldl_sep_prefix sep (p q : string) rest :
  foldl (λ acc x, acc +:+ sep +:+ x) (p +:+ q) rest
  = p +:+ foldl (λ acc x, acc +:+ sep +:+ x) q rest.
Proof.
  revert q. induction rest as [|x rest IH]; intros q; simpl; [done|].
  by rewrite string_app_assoc, IH.
Qed.

(** Joining is the first item followed by every later item behind a
    separator. *)
Lemma join_foldl sep s rest :
  join sep (s :: rest) = foldl (λ acc x, acc +:+ sep +:+ x) s rest.
Proof.
  revert s. induction rest as [|s' rest IH]; intros s; [done|].
  rewrite join_cons, IH. simpl.
  by rewrite <- !foldl_sep_prefix.
Qed.

(** ** Defining equations *)

Lemma py_eq_unfold concept_eq item value :
  py_eq concept_eq item value
  = bool_decide (obj_id item = obj_id value) || concept_eq item value.
Proof. reflexivity. Qed.

Lemma maps_to_list_unfold concept_eq concept_list :
  maps_to_list concept_eq concept_list
  = maps_to_list_loop concept_eq concept_list (enumerate concept_list) [].
Proof. reflexivity. Qed.

Lemma DataFrame_to_csv_unfold to_csv os_write df path fs :
  DataFrame_to_csv to_csv os_write df path fs
  = match os_write fs path (to_csv df) with
    | Written => (<[path := to_csv df]> fs, inr ())
    | Failed e None => (fs, inl e)
    | Failed e (Some text) => (<[path := text]> fs, inl e)
    end.
Proof. reflexivity. Qed.

Lemma boiler_unfold concept_eq Context_fromfile to_csv os_write
    csv_filename output_path fs :
  boiler concept_eq Context_fromfile to_csv os_write csv_filename output_path fs
  = match Context_fromfile fs csv_filename with
    | inl e => (fs, inl e)
    | inr c =>
        match maps_to_list concept_eq (lattice c) with
        | inl e => (fs, inl e)
        | inr m =>
            io_bind
              (DataFrame_to_csv to_csv os_write
                 (concept_df (concept_names (lattice c)))
                 (output_path +:+ "concept.csv"))
              (λ _, DataFrame_to_csv to_csv os_write (concept_relationship_df m)
                      (output_path +:+ "concept_relationship.csv")) fs
        end
    end.
Proof.
  unfold boiler. unfold io_bind at 1 2. unfold io_lift.
  destruct (Context_fromfile fs csv_filename) as [e|c]; [done|].
  by destruct (maps_to_list concept_eq (lattice c)).
Qed.

Section Resolution.

Variable concept_eq : Concept → Concept → bool.

Local Abbreviation py_eq := (py_eq concept_eq).
Local Abbreviation list_index := (list_index concept_eq).
Local Abbreviation parent_concept_indexes := (parent_concept_indexes concept_eq).
Local Abbreviation maps_to_list_loop := (maps_to_list_loop concept_eq).
Local Abbreviation maps_to_list := (maps_to_list concept_eq).

(** ** [list.index] *)

Lemma py_eq_same item value : obj_id item = obj_id value → py_eq item value = true.
Proof. intros H. rewrite py_eq_unfold. by rewrite bool_decide_eq_true_2. Qed.

(** The position returned is the first one whose item is the value or
    equals it. *)
Lemma list_index_inr l value i :
  list_index l value = inr i ↔
  ∃ item, l !! i = Some item ∧ py_eq item value = true ∧
          ∀ j y, j < i → l !! j = Some y → py_eq y value = false.
Proof.
  revert i. induction l as [|x l IH]; intros i; simpl.
  - split; [done|]. by intros (item & ? & _).
  - destruct (py_eq x value) eqn:Hx.
    + split.
      * intros [= <-]. exists x. repeat split; [done|]. intros j y Hj. lia.
      * intros (item & Hi & Hitem & Hfirst). destruct i as [|i]; [done|].
        specialize (Hfirst 0 x). rewrite Hfirst in Hx; [done|lia|done].
    + unfold result_bind. destruct (list_index l value) as [e|k] eqn:Hl.
      * split; [done|]. intros (item & Hi & Hitem & Hfirst).
        destruct i as [|i]; simpl in Hi; [congruence|].
        assert (inl e = inr i) as Habs; [|done].
        apply IH. exists item. repeat split; [done..|].
        intros j y Hj Hy. apply (Hfirst (S j) y); [lia|done].
      * split.
        -- intros [= <-]. destruct (proj1 (IH k) eq_refl) as (item & Hi & Hitem & Hfirst).
           exists item. repeat split; [done..|].
           intros [|j] y Hj Hy; simpl in Hy; [congruence|].
           apply (Hfirst j y); [lia|done].
        -- intros (item & Hi & Hitem & Hfirst).
           destruct i as [|i]; simpl in Hi; [congruence|].
           f_equal. f_equal. assert (inr k = inr i :> result nat) as [= ->]; [|done].
           apply IH. exists item. repeat split; [done..|].
           intros j y Hj Hy. apply (Hfirst (S j) y); [lia|done].
Qed.

(** It raises [ValueError], and nothing else, exactly when no item is the
    value or equals it. *)
Lemma list_index_inl l value e :
  list_index l value = inl e ↔
  e = ValueError ∧ Forall (λ item, py_eq item value = false) l.
Proof.
  induction l as [|x l IH]; simpl.
  - split; [intros [= <-]; by split|]. by intros [-> _].
  - destruct (py_eq x value) eqn:Hx.
    + split; [done|]. intros [_ H]. inversion H; congruence.
    + unfold result_bind. destruct (list_index l value) as [e'|k] eqn:Hl.
      * split.
        -- intros [= ->]. destruct (proj1 IH eq_refl) as [-> Hall]. split; [done|].
           by constructor.
        -- intros [-> H]. inversion H; subst. by apply IH.
      * split; [done|]. intros [-> H]. inversion H; subst.
        assert (inr k = inl ValueError :> result nat); [|done]. by apply IH.
Qed.

Lemma list_index_lt l value i : list_index l value = inr i → i < length l.
Proof.
  intros (item & Hi & _)%list_index_inr. by eapply lookup_lt_Some.
Qed.

(** A value that is in the list as an object is found. *)
Lemma list_index_enumerated l value :
  enumerated l value → ∃ i, list_index l value = inr i.
Proof.
  intros Hin. destruct (list_index l value) as [e|i] eqn:Hl; [|by eexists].
  apply list_index_inl in Hl as [_ Hall].
  apply list_elem_of_fmap in Hin as (x & Hid & Hx).
  rewrite Forall_forall in Hall. specialize (Hall x Hx).
  rewrite py_eq_same in Hall; done.
Qed.

(** ** The edge loop *)

Lemma parent_concept_indexes_inr cl con ps :
  parent_concept_indexes cl con = inr ps ↔
  Forall2 (λ p j, list_index cl p = inr j) (upper_neighbors con) ps.
Proof. apply comprehension_inr. Qed.

Lemma maps_to_list_loop_inr cl items acc m :
  maps_to_list_loop cl items acc = inr m ↔
  ∃ pss, Forall2 (λ ic ps, parent_concept_indexes cl ic.2 = inr ps) items pss ∧
         m = acc ++ edges_of items pss.
Proof.
  revert acc. induction items as [|[idx con] items IH]; intros acc; simpl.
  - split.
    + intros [= <-]. exists []. split; [constructor|]. by rewrite app_nil_r.
    + intros (pss & H & ->). inversion H; subst. unfold edges_of; simpl.
      by rewrite app_nil_r.
  - unfold result_bind.
    destruct (parent_concept_indexes cl con) as [e|ps] eqn:Hps.
    + split; [done|]. intros (pss & H & _). inversion H; subst. simpl in *. congruence.
    + rewrite IH. split.
      * intros (pss & H & ->). exists (ps :: pss). split; [by constructor|].
        unfold edges_of; simpl. by rewrite app_assoc.
      * intros (pss & H & ->). inversion H as [|? ps' ? pss' Hp Hrest]; subst.
        simpl in Hp. assert (ps' = ps) as -> by congruence.
        exists pss'. split; [done|]. unfold edges_of; simpl. by rewrite app_assoc.
Qed.

Lemma maps_to_list_loop_inl cl items acc e :
  maps_to_list_loop cl items acc = inl e →
  ∃ ic, ic ∈ items ∧ parent_concept_indexes cl ic.2 = inl e.
Proof.
  revert acc. induction items as [|[idx con] items IH]; intros acc; simpl; [done|].
  unfold result_bind.
  destruct (parent_concept_indexes cl con) as [e'|ps] eqn:Hps.
  - intros [= ->]. exists (idx, con). split; [left|done].
  - intros (ic & Hin & Hic)%IH. exists ic. split; [by right|done].
Qed.

Lemma edges_of_elem items pss i j :
  (i, j) ∈ edges_of items pss ↔
  ∃ k con ps, items !! k = Some (i, con) ∧ pss !! k = Some ps ∧ j ∈ ps.
Proof.
  unfold edges_of. revert pss. induction items as [|[idx con] items IH]; intros pss.
  - simpl. split; [by intros ?%elem_of_nil|]. by intros (k & ? & ? & ? & _).
  - destruct pss as [|ps pss]; simpl.
    + split; [by intros ?%elem_of_nil|]. by intros (k & ? & ? & _ & ? & _).
    + rewrite elem_of_app, IH, list_elem_of_fmap. split.
      * intros [(y & [= -> ->] & Hy)|(k & con' & ps' & Hk & Hps & Hj)].
        -- by exists 0, con, ps.
        -- by exists (S k), con', ps'.
      * intros ([|k] & con' & ps' & Hk & Hps & Hj); simpl in *.
        -- left. exists j. by simplify_eq.
        -- right. by exists k, con', ps'.
Qed.

Lemma edges_of_length items pss :
  length items = length pss →
  length (edges_of items pss) = sum_list_with length pss.
Proof.
  unfold edges_of. revert pss. induction items as [|ic items IH]; intros [|ps pss]; simpl;
    [done..|].
  intros [= Hlen]. by rewrite length_app, length_fmap, IH.
Qed.

Lemma enumerate_lookup {A} (l : list A) k i x :
  enumerate l !! k = Some (i, x) ↔ i = k ∧ l !! k = Some x.
Proof.
  unfold enumerate. rewrite list_lookup_imap.
  destruct (l !! k) as [y|]; simpl; split.
  - by intros [= <- <-].
  - by intros [-> [= ->]].
  - done.
  - by intros [_ ?].
Qed.

(** The pairs of a successful run: [(i, j)] is there exactly when [j] is
    what [list.index] returns for an upper neighbour of the concept at
    position [i]. *)
Lemma maps_to_list_elem cl m i j :
  maps_to_list cl = inr m →
  (i, j) ∈ m ↔
  ∃ con p, cl !! i = Some con ∧ p ∈ upper_neighbors con ∧ list_index cl p = inr j.
Proof.
  rewrite maps_to_list_unfold. intros Hrun.
  apply maps_to_list_loop_inr in Hrun as (pss & Hall & Hm). subst m.
  simpl. rewrite edges_of_elem. split.
  - intros (k & con & ps & Hk & Hps & Hj).
    apply enumerate_lookup in Hk as Hk'. destruct Hk' as [-> Hcon].
    pose proof (Forall2_lookup_lr _ _ _ _ _ _ Hall Hk Hps) as Hres. simpl in Hres.
    apply parent_concept_indexes_inr in Hres.
    apply list_elem_of_lookup in Hj as [a Ha].
    destruct (Forall2_lookup_r _ _ _ _ _ Hres Ha) as (p & Hp & Hidx).
    exists con, p. split_and!; [done| |done]. apply list_elem_of_lookup. by exists a.
  - intros (con & p & Hcon & Hp & Hidx).
    assert (enumerate cl !! i = Some (i, con)) as Hk by by apply enumerate_lookup.
    destruct (Forall2_lookup_l _ _ _ _ _ Hall Hk) as (ps & Hps & Hres). simpl in Hres.
    apply parent_concept_indexes_inr in Hres.
    apply list_elem_of_lookup in Hp as [a Ha].
    destruct (Forall2_lookup_l _ _ _ _ _ Hres Ha) as (j' & Hj' & Hidx').
    assert (j' = j) as -> by congruence.
    exists i, con, ps. split_and!; [done..|]. apply list_elem_of_lookup. by exists a.
Qed.

Lemma enumerate_snd {A} (l : list A) : snd <$> enumerate l = l.
Proof.
  apply list_eq. intros k. unfold enumerate.
  rewrite list_lookup_fmap, list_lookup_imap. by destruct (l !! k).
Qed.

Lemma enumerate_Forall2 {A B} (P : A → B → Prop) (l : list A) (k : list B) :
  Forall2 (λ ix y, P ix.2 y) (enumerate l) k ↔ Forall2 P l k.
Proof.
  rewrite <- (enumerate_snd l) at 2. by rewrite Forall2_fmap_l.
Qed.

Lemma enumerate_fst_NoDup {A} (l : list A) : NoDup (fst <$> enumerate l).
Proof.
  apply NoDup_alt. intros a b x Ha Hb.
  rewrite list_lookup_fmap in Ha, Hb.
  destruct (enumerate l !! a) as [[i y]|] eqn:Hea; [|done].
  destruct (enumerate l !! b) as [[i' y']|] eqn:Heb; [|done].
  apply enumerate_lookup in Hea as [-> _]. apply enumerate_lookup in Heb as [-> _].
  simpl in *. congruence.
Qed.

(** A run succeeds exactly when every upper neighbour of every enumerated
    concept resolves; its pairs are then those of the resolved positions. *)
Lemma maps_to_list_inr cl m :
  maps_to_list cl = inr m ↔
  ∃ pss, Forall2 (λ con ps, parent_concept_indexes cl con = inr ps) cl pss ∧
         m = edges_of (enumerate cl) pss.
Proof.
  rewrite maps_to_list_unfold, maps_to_list_loop_inr. simpl.
  split; intros (pss & Hall & ->); exists pss; (split; [|done]).
  - by apply (enumerate_Forall2 (λ con ps, parent_concept_indexes cl con = inr ps)).
  - by apply (enumerate_Forall2 (λ con ps, parent_concept_indexes cl con = inr ps)).
Qed.

Lemma sum_list_with_Forall2 {A B} (f : A → nat) (g : B → nat) l k :
  Forall2 (λ x y, f x = g y) l k → sum_list_with f l = sum_list_with g k.
Proof. induction 1 as [|x y l k Hxy _ IH]; simpl; [done|]. by rewrite Hxy, IH. Qed.

Lemma maps_to_list_length cl m :
  maps_to_list cl = inr m →
  length m = sum_list_with (λ con, length (upper_neighbors con)) cl.
Proof.
  intros (pss & Hall & ->)%maps_to_list_inr.
  rewrite edges_of_length.
  - symmetry. apply sum_list_with_Forall2.
    eapply Forall2_impl; [exact Hall|]. intros con ps Hres. simpl in Hres.
    apply parent_concept_indexes_inr in Hres. by eapply Forall2_length.
  - unfold enumerate. rewrite length_imap. by eapply Forall2_length.
Qed.

(** A run raises only [ValueError], and only for an upper neighbour that no
    enumerated concept is or equals. *)
Lemma maps_to_list_inl cl e :
  maps_to_list cl = inl e →
  e = ValueError ∧
  ∃ con p, con ∈ cl ∧ p ∈ upper_neighbors con ∧
           Forall (λ item, py_eq item p = false) cl.
Proof.
  rewrite maps_to_list_unfold. intros ([i con] & Hin & Hres)%maps_to_list_loop_inl.
  simpl in Hres. apply comprehension_inl in Hres as (p & Hp & Hidx).
  apply list_index_inl in Hidx as [-> Hall]. split; [done|].
  exists con, p. split_and!; [|done..].
  apply list_elem_of_lookup in Hin as [k Hk].
  apply enumerate_lookup in Hk as [_ Hk]. apply list_elem_of_lookup. by exists k.
Qed.

Lemma maps_to_list_dangling cl con p :
  con ∈ cl → p ∈ upper_neighbors con →
  Forall (λ item, py_eq item p = false) cl →
  maps_to_list cl = inl ValueError.
Proof.
  intros Hcon Hp Hall. destruct (maps_to_list cl) as [e|m] eqn:Hrun.
  - apply maps_to_list_inl in Hrun as [-> _]. done.
  - apply maps_to_list_inr in Hrun as (pss & Hres & _).
    apply list_elem_of_lookup in Hcon as [i Hi].
    destruct (Forall2_lookup_l _ _ _ _ _ Hres Hi) as (ps & _ & Hps).
    simpl in Hps. apply parent_concept_indexes_inr in Hps.
    apply list_elem_of_lookup in Hp as [a Ha].
    destruct (Forall2_lookup_l _ _ _ _ _ Hps Ha) as (j & _ & Hj).
    assert (list_index cl p = inl ValueError) as Habs by by apply list_index_inl.
    congruence.
Qed.

Lemma maps_to_list_resolvable cl :
  (∀ con p, con ∈ cl → p ∈ upper_neighbors con → ∃ j, list_index cl p = inr j) →
  ∃ m, maps_to_list cl = inr m.
Proof.
  intros Hres. destruct (maps_to_list cl) as [e|m] eqn:Hrun; [|by eexists].
  apply maps_to_list_inl in Hrun as (_ & con & p & Hcon & Hp & Hall).
  destruct (Hres con p Hcon Hp) as [j Hj].
  assert (list_index cl p = inl ValueError) as Habs by by apply list_index_inl.
  congruence.
Qed.

(** Every position in a pair is a position of the enumeration. *)
Lemma maps_to_list_bounds cl m i j :
  maps_to_list cl = inr m → (i, j) ∈ m → i < length cl ∧ j < length cl.
Proof.
  intros Hrun Hin. apply (maps_to_list_elem _ _ _ _ Hrun) in Hin
    as (con & p & Hcon & _ & Hidx).
  split; [by eapply lookup_lt_Some|by eapply list_index_lt].
Qed.

End Resolution.

(** ** The two frames *)

Lemma zip_with_cons_replicate {A} (col : list A) :
  zip_with cons col (replicate (length col) []) = (λ x, [x]) <$> col.
Proof. induction col as [|x col IH]; simpl; [done|]. by rewrite IH. Qed.

Lemma concept_rows_from k (names : list string) :
  zip_with cons (Int <$> seq k (length names)) ((λ x, [x]) <$> (Str <$> names))
  = zip_with (λ i nm, [Int i; Str nm]) (seq k (length names)) names.
Proof.
  revert k. induction names as [|nm names IH]; intros k; simpl; [done|].
  by rewrite IH.
Qed.

(** The rows of the node table: position and name, in enumeration order. *)
Lemma concept_df_rows names :
  df_rows (concept_df names)
  = zip_with (λ i nm, [Int i; Str nm]) (seq 0 (length names)) names.
Proof.
  unfold df_rows, concept_df. simpl.
  rewrite length_fmap, length_seq.
  rewrite <- (length_fmap Str names) at 2.
  rewrite zip_with_cons_replicate. apply concept_rows_from.
Qed.

(** The rows of the edge table: child, the literal, parent, in the order
    the pairs were appended. *)
Lemma concept_relationship_df_rows (m : list (nat * nat)) :
  df_rows (concept_relationship_df m)
  = (λ e, [Int e.1; Str "Is a"; Int e.2]) <$> m.
Proof.
  unfold df_rows, concept_relationship_df. simpl.
  rewrite !length_fmap.
  induction m as [|[i j] m IH]; [done|]. simpl. f_equal. exact IH.
Qed.

Lemma concept_df_row names i nm :
  names !! i = Some nm → df_rows (concept_df names) !! i = Some [Int i; Str nm].
Proof.
  intros Hnm. rewrite concept_df_rows, lookup_zip_with.
  rewrite lookup_seq_lt by by eapply lookup_lt_Some.
  simpl. by rewrite Hnm.
Qed.

(** The chain of three concepts: the rows of both tables. *)
Example chain_tables :
  df_rows (concept_df (concept_names Sample.chain))
  = [[Int 0; Str ""]; [Int 1; Str "a"]; [Int 2; Str "a; b"]] ∧
  maps_to_list object_eq Sample.chain = inr [(1, 0); (2, 1)] ∧
  df_rows (concept_relationship_df [(1, 0); (2, 1)])
  = [[Int 1; Str "Is a"; Int 0]; [Int 2; Str "Is a"; Int 1]].
Proof. by split_and!. Qed.

(** ** The node table *)

(** C1. For a lattice of N concepts the node table has exactly N rows, its
    [id] column is 0, ..., N-1 in this order, and the row at position [i]
    carries the id [i] and the name of the [i]-th enumerated concept.  Every
    id below N belongs to one concept, and when the enumeration yields every
    concept once, every concept has one id: identity to id is a bijection
    fixed by the single enumeration pass. *)
Theorem node_table_ids_bijection (concept_list : list Concept) :
  let N := length concept_list in
  let table := concept_df (concept_names concept_list) in
  length (df_rows table) = N ∧
  df_column table "id" = Some (Int <$> seq 0 N) ∧
  (∀ i con, concept_list !! i = Some con →
     df_rows table !! i = Some [Int i; Str (get_concept_name con)]) ∧
  (∀ i, i < N → exists! o, ids concept_list !! i = Some o) ∧
  (NoDup (ids concept_list) →
     ∀ con, con ∈ concept_list →
       exists! i, i < N ∧ ids concept_list !! i = Some (obj_id con)).
Proof.
  intros N table. subst N table. split_and!.
  - rewrite concept_df_rows, length_zip_with, length_seq.
    unfold concept_names. rewrite length_fmap. lia.
  - unfold concept_df, concept_names. simpl. by rewrite length_fmap.
  - intros i con Hcon. apply concept_df_row.
    unfold concept_names. by rewrite list_lookup_fmap, Hcon.
  - intros i Hi. destruct (lookup_lt_is_Some_2 (ids concept_list) i) as [o Ho].
    { unfold ids. by rewrite length_fmap. }
    exists o. split; [done|]. intros o' Ho'. congruence.
  - intros Hnodup con Hcon.
    apply list_elem_of_lookup in Hcon as [i Hi].
    assert (ids concept_list !! i = Some (obj_id con)) as Hid.
    { unfold ids. by rewrite list_lookup_fmap, Hi. }
    exists i. split.
    + split; [by eapply lookup_lt_Some|done].
    + intros i' [_ Hi']. by eapply NoDup_lookup.
Qed.

Lemma node_table_ids_bijection_chain :
  NoDup (ids Sample.chain) ∧
  Sample.middle ∈ Sample.chain ∧
  exists! i, i < 3 ∧ ids Sample.chain !! i = Some (obj_id Sample.middle).
Proof.
  assert (NoDup (ids Sample.chain)) as Hnodup
    by by apply (bool_decide_unpack (NoDup (ids Sample.chain))).
  assert (Sample.middle ∈ Sample.chain) as Hin by (right; left).
  split_and!; [done..|].
  by apply (node_table_ids_bijection Sample.chain).
Defined.

(** C6. The name of a concept is the attributes of its intent, in the order
    the intent yields them, each later one behind the separator ["; "]; for
    an empty intent it is the empty string. *)
Theorem concept_name_joins_intent (concept : Concept) :
  get_concept_name concept
  = match intent concept with
    | [] => ""
    | attribute :: rest => foldl (λ nm a, nm +:+ "; " +:+ a) attribute rest
    end
  ∧ (∀ i ext ups, get_concept_name (mkConcept i [] ext ups) = "").
Proof.
  split; [|done]. unfold get_concept_name.
  destruct (intent concept) as [|attribute rest]; [done|]. apply join_foldl.
Qed.

(** ** The edge table of a well-formed lattice *)

Lemma edges_of_NoDup items pss :
  NoDup (fst <$> items) → Forall NoDup pss → NoDup (edges_of items pss).
Proof.
  unfold edges_of. revert pss.
  induction items as [|[idx con] items IH]; intros pss Hitems Hpss; simpl.
  - constructor.
  - destruct pss as [|ps pss]; simpl; [constructor|].
    apply NoDup_cons in Hitems as [Hidx Hitems].
    apply Forall_cons in Hpss as [Hps Hpss].
    apply NoDup_app. split_and!.
    + apply NoDup_fmap_2_strong; [|done]. by intros x y _ _ [= ->].
    + intros [i j] (j' & [= -> ->] & _)%list_elem_of_fmap Hin.
      apply (edges_of_elem items pss) in Hin as (k & con' & _ & Hk & _).
      apply Hidx. apply list_elem_of_fmap. exists (idx, con'). split; [done|].
      apply list_elem_of_lookup. by exists k.
    + by apply IH.
Qed.

Section WellFormed.

Variable concept_eq : Concept → Concept → bool.
Variable concept_list : list Concept.
Hypothesis wf : well_formed concept_eq concept_list.

Lemma wf_once : NoDup (ids concept_list).
Proof. apply wf. Qed.

Lemma wf_node con :
  con ∈ concept_list →
  NoDup (ids (upper_neighbors con)) ∧
  (obj_id con ∉ ids (upper_neighbors con)) ∧
  ∀ p, p ∈ upper_neighbors con →
    enumerated concept_list p ∧
    ∀ x, x ∈ concept_list → py_eq concept_eq x p = true → obj_id x = obj_id p.
Proof.
  intros Hcon. destruct wf as [_ Hall].
  rewrite Forall_forall in Hall. destruct (Hall con Hcon) as (Hset & Hirr & Hups).
  split_and!; [done..|]. intros p Hp.
  rewrite Forall_forall in Hups. destruct (Hups p Hp) as [Henum Heq].
  split; [done|]. by rewrite Forall_forall in Heq.
Qed.

Lemma wf_closed con p :
  con ∈ concept_list → p ∈ upper_neighbors con → enumerated concept_list p.
Proof. intros Hcon Hp. by apply (wf_node con Hcon). Qed.

Lemma wf_set con : con ∈ concept_list → NoDup (ids (upper_neighbors con)).
Proof. intros Hcon. by apply (wf_node con Hcon). Qed.

Lemma wf_irrefl con : con ∈ concept_list → obj_id con ∉ ids (upper_neighbors con).
Proof. intros Hcon. by apply (wf_node con Hcon). Qed.

Lemma wf_eq con p x :
  con ∈ concept_list → p ∈ upper_neighbors con → x ∈ concept_list →
  py_eq concept_eq x p = true → obj_id x = obj_id p.
Proof. intros Hcon Hp. by apply (wf_node con Hcon). Qed.

(** In a well-formed lattice an upper neighbour resolves to the position
    of the concept it is. *)
Lemma well_formed_resolves con p j :
  con ∈ concept_list → p ∈ upper_neighbors con →
  list_index concept_eq concept_list p = inr j ↔
  ∃ q, concept_list !! j = Some q ∧ obj_id q = obj_id p.
Proof.
  intros Hcon Hp.
  assert (∀ k, list_index concept_eq concept_list p = inr k →
               ∃ q, concept_list !! k = Some q ∧ obj_id q = obj_id p) as Hfwd.
  { intros k (q & Hq & Heq & _)%list_index_inr. exists q. split; [done|].
    eapply wf_eq; [exact Hcon|exact Hp| |exact Heq].
    apply list_elem_of_lookup. by exists k. }
  split; [apply Hfwd|].
  intros (q & Hq & Hid).
  destruct (list_index_enumerated concept_eq concept_list p) as [k Hk].
  { by eapply wf_closed. }
  destruct (Hfwd k Hk) as (q' & Hq' & Hid').
  assert (k = j) as ->; [|done].
  eapply (NoDup_lookup (ids concept_list)); [exact wf_once| |].
  - unfold ids. rewrite list_lookup_fmap, Hq'. simpl. by rewrite Hid'.
  - unfold ids. rewrite list_lookup_fmap, Hq. simpl. by rewrite Hid.
Qed.

Lemma well_formed_indexes_NoDup con ps :
  con ∈ concept_list →
  parent_concept_indexes concept_eq concept_list con = inr ps → NoDup ps.
Proof.
  intros Hcon Hres%parent_concept_indexes_inr.
  apply NoDup_alt. intros a b j Ha Hb.
  destruct (Forall2_lookup_r _ _ _ _ _ Hres Ha) as (pa & Hpa & Hia).
  destruct (Forall2_lookup_r _ _ _ _ _ Hres Hb) as (pb & Hpb & Hib).
  assert (pa ∈ upper_neighbors con) as Hina by (apply list_elem_of_lookup; by exists a).
  assert (pb ∈ upper_neighbors con) as Hinb by (apply list_elem_of_lookup; by exists b).
  apply (proj1 (well_formed_resolves con pa j Hcon Hina)) in Hia as (qa & Hqa & Hida).
  apply (proj1 (well_formed_resolves con pb j Hcon Hinb)) in Hib as (qb & Hqb & Hidb).
  assert (qb = qa) as -> by congruence.
  eapply (NoDup_lookup (ids (upper_neighbors con))); [by apply wf_set| |].
  - unfold ids. rewrite list_lookup_fmap, Hpa. simpl. by rewrite <- Hida.
  - unfold ids. rewrite list_lookup_fmap, Hpb. simpl. by rewrite <- Hidb.
Qed.

(** C2. For a well-formed lattice the export succeeds and its edge rows are
    exactly the covering relation: as many rows as the upper-neighbour sets
    have members in total, a row [(i, "Is a", j)] exactly when the concept
    at position [j] is an upper neighbour of the concept at position [i]
    (so no other ancestor appears), no row twice and no row from a position
    to itself. *)
Theorem edges_are_covering_relation :
  ∃ m, maps_to_list concept_eq concept_list = inr m ∧
    df_rows (concept_relationship_df m) = (λ e, [Int e.1; Str "Is a"; Int e.2]) <$> m ∧
    length (df_rows (concept_relationship_df m))
      = sum_list_with (λ con, length (upper_neighbors con)) concept_list ∧
    (∀ i j, (i, j) ∈ m ↔
       ∃ con p q, concept_list !! i = Some con ∧ p ∈ upper_neighbors con ∧
                  concept_list !! j = Some q ∧ obj_id q = obj_id p) ∧
    NoDup m ∧ NoDup (df_rows (concept_relationship_df m)) ∧
    (∀ i j, (i, j) ∈ m → i ≠ j).
Proof.
  destruct (maps_to_list_resolvable concept_eq concept_list) as [m Hm].
  { intros con p Hcon Hp. apply list_index_enumerated. by eapply wf_closed. }
  assert (∀ i j, (i, j) ∈ m ↔
       ∃ con p q, concept_list !! i = Some con ∧ p ∈ upper_neighbors con ∧
                  concept_list !! j = Some q ∧ obj_id q = obj_id p) as Helem.
  { intros i j. rewrite (maps_to_list_elem _ _ _ _ _ Hm). split.
    - intros (con & p & Hcon & Hp & Hidx).
      assert (con ∈ concept_list) as Hin by (apply list_elem_of_lookup; by exists i).
      apply (proj1 (well_formed_resolves con p j Hin Hp)) in Hidx as (q & Hq & Hid).
      by exists con, p, q.
    - intros (con & p & q & Hcon & Hp & Hq & Hid). exists con, p.
      split_and!; [done..|].
      apply (well_formed_resolves con); [apply list_elem_of_lookup; by exists i|done|].
      by exists q. }
  assert (NoDup m) as Hnodup.
  { apply maps_to_list_inr in Hm as (pss & Hall & ->).
    apply edges_of_NoDup; [apply enumerate_fst_NoDup|].
    apply Forall_forall. intros ps [k Hk]%list_elem_of_lookup.
    destruct (Forall2_lookup_r _ _ _ _ _ Hall Hk) as (con & Hcon & Hres).
    eapply well_formed_indexes_NoDup; [|exact Hres].
    apply list_elem_of_lookup. by exists k. }
  exists m. split_and!; [done| |  |done|done| |].
  - apply concept_relationship_df_rows.
  - rewrite concept_relationship_df_rows, length_fmap.
    by apply (maps_to_list_length concept_eq).
  - rewrite concept_relationship_df_rows.
    apply NoDup_fmap_2_strong; [|done].
    intros [i j] [i' j'] _ _ [= -> ->]. done.
  - intros i j (con & p & q & Hcon & Hp & Hq & Hid)%Helem ->.
    assert (q = con) as -> by congruence.
    eapply wf_irrefl; [apply list_elem_of_lookup; by exists j|].
    rewrite Hid. unfold ids. by apply list_elem_of_fmap_2.
Qed.

End WellFormed.

Lemma edges_are_covering_relation_chain :
  ∃ m, maps_to_list object_eq Sample.chain = inr m ∧
    df_rows (concept_relationship_df m) = (λ e, [Int e.1; Str "Is a"; Int e.2]) <$> m ∧
    length (df_rows (concept_relationship_df m))
      = sum_list_with (λ con, length (upper_neighbors con)) Sample.chain ∧
    (∀ i j, (i, j) ∈ m ↔
       ∃ con p q, Sample.chain !! i = Some con ∧ p ∈ upper_neighbors con ∧
                  Sample.chain !! j = Some q ∧ obj_id q = obj_id p) ∧
    NoDup m ∧ NoDup (df_rows (concept_relationship_df m)) ∧
    (∀ i j, (i, j) ∈ m → i ≠ j).
Proof.
  apply (edges_are_covering_relation object_eq Sample.chain).
  by apply (bool_decide_unpack (well_formed object_eq Sample.chain)).
Defined.

(** ** Referential integrity *)

(** C7. After a successful run every edge row is [(id_1, "Is a", id_2)]
    with both ids below the number of concepts, and both ids occur in the
    [id] column of the node table. *)
Theorem edge_rows_referential_integrity concept_eq
    (concept_list : list Concept) (m : list (nat * nat)) :
  maps_to_list concept_eq concept_list = inr m →
  ∃ id_col,
    df_column (concept_df (concept_names concept_list)) "id" = Some id_col ∧
    ∀ row, row ∈ df_rows (concept_relationship_df m) →
      ∃ id_1 id_2, row = [Int id_1; Str "Is a"; Int id_2] ∧
        id_1 < length concept_list ∧ id_2 < length concept_list ∧
        Int id_1 ∈ id_col ∧ Int id_2 ∈ id_col.
Proof.
  intros Hrun. exists (Int <$> seq 0 (length concept_list)). split.
  - apply (node_table_ids_bijection concept_list).
  - intros row. rewrite concept_relationship_df_rows.
    intros ([i j] & -> & Hin)%list_elem_of_fmap. simpl.
    destruct (maps_to_list_bounds _ _ _ _ _ Hrun Hin) as [Hi Hj].
    exists i, j. split_and!; [done..| |].
    + apply list_elem_of_fmap_2, elem_of_seq. lia.
    + apply list_elem_of_fmap_2, elem_of_seq. lia.
Qed.

Lemma edge_rows_referential_integrity_chain :
  ∃ id_col,
    df_column (concept_df (concept_names Sample.chain)) "id" = Some id_col ∧
    ∀ row, row ∈ df_rows (concept_relationship_df [(1, 0); (2, 1)]) →
      ∃ id_1 id_2, row = [Int id_1; Str "Is a"; Int id_2] ∧
        id_1 < length Sample.chain ∧ id_2 < length Sample.chain ∧
        Int id_1 ∈ id_col ∧ Int id_2 ∈ id_col.
Proof.
  apply (edge_rows_referential_integrity object_eq Sample.chain [(1, 0); (2, 1)]).
  reflexivity.
Defined.

(** ** Index resolution *)




Lemma resolves_to_position concept_eq (cl : list Concept) (i : nat) (q p : Concept) :
  NoDup (ids cl) → cl !! i = Some q → obj_id q = obj_id p →
  (∀ x, x ∈ cl → py_eq concept_eq x p = true → obj_id x = obj_id p) →
  list_index concept_eq cl p = inr i.
Proof.
  intros Hnodup Hq Hid Heq.
  destruct (list_index_enumerated concept_eq cl p) as [j Hj].
  { unfold enumerated, ids. rewrite <- Hid. apply list_elem_of_fmap_2.
    apply list_elem_of_lookup. by exists i. }
  pose proof (proj1 (list_index_inr _ _ _ _) Hj) as (item & Hitem & Htrue & _).
  assert (obj_id item = obj_id p) as Hitemid.
  { apply Heq; [|done]. apply list_elem_of_lookup. by exists j. }
  assert (j = i) as ->; [|done].
  eapply (NoDup_lookup (ids cl)); [done| |].
  - unfold ids. rewrite list_lookup_fmap, Hitem. simpl. by rewrite Hitemid.
  - unfold ids. rewrite list_lookup_fmap, Hq. simpl. by rewrite Hid.
Qed.

Section ByIdentity.

Variable concept_eq : Concept → Concept → bool.
Variable concept_list : list Concept.

(** Node equality is identity: two concepts that compare equal are the
    same object, as for a class that defines no [__eq__]. *)
Hypothesis eq_is_identity : ∀ a b, concept_eq a b = true → obj_id a = obj_id b.

(** Every concept is enumerated once. *)
Hypothesis once : NoDup (ids concept_list).




End ByIdentity.


(** ** The export *)

Lemma string_app_inj (p a b : string) : p +:+ a = p +:+ b → a = b.
Proof.
  induction p as [|ch p IH]; [done|].
  change (String ch (p +:+ a) = String ch (p +:+ b) → a = b).
  intros [= H]. by apply IH.
Qed.

(** The two destinations are different files, whatever the prefix. *)
Lemma destinations_differ (output_path : string) :
  output_path +:+ "concept.csv" ≠ output_path +:+ "concept_relationship.csv".
Proof. intros H%string_app_inj. discriminate H. Qed.

Section Exporter.

Variable concept_eq : Concept → Concept → bool.
Variable Context_fromfile : FS → string → result Context.
Variable to_csv : DataFrame → string.
Variable os_write : FS → string → string → write_outcome.

Local Abbreviation boiler := (boiler concept_eq Context_fromfile to_csv os_write).
Local Abbreviation DataFrame_to_csv := (DataFrame_to_csv to_csv os_write).

(** The files a successful run leaves, from the pairs it collected. *)
Local Abbreviation written output_path concept_list m fs :=
  (<[output_path +:+ "concept_relationship.csv" := to_csv (concept_relationship_df m)]>
     (<[output_path +:+ "concept.csv" := to_csv (concept_df (concept_names concept_list))]>
        fs)).

(** *** One write *)

Lemma DataFrame_to_csv_inr df path fs fs' :
  DataFrame_to_csv df path fs = (fs', inr ()) ↔
  os_write fs path (to_csv df) = Written ∧ fs' = <[path := to_csv df]> fs.
Proof.
  rewrite DataFrame_to_csv_unfold.
  destruct (os_write fs path (to_csv df)) as [|e [text|]]; split;
    try (by intros [= <-]); try (by intros [[=] _]); try done.
  by intros [_ ->].
Qed.

Lemma DataFrame_to_csv_inl df path fs fs' e :
  DataFrame_to_csv df path fs = (fs', inl e) ↔
  ∃ left, os_write fs path (to_csv df) = Failed e left ∧
          fs' = match left with Some text => <[path := text]> fs | None => fs end.
Proof.
  rewrite DataFrame_to_csv_unfold.
  destruct (os_write fs path (to_csv df)) as [|e' [text|]]; split.
  - done.
  - by intros (left & [=] & _).
  - intros [= <- <-]. by exists (Some text).
  - intros (left & [= <- <-] & ->). done.
  - intros [= <- <-]. by exists None.
  - intros (left & [= <- <-] & ->). done.
Qed.

(** A write touches no path but its own and removes none. *)
Lemma DataFrame_to_csv_frame df path fs :
  dom fs ⊆ dom (DataFrame_to_csv df path fs).1 ∧
  ∀ path', path' ≠ path → (DataFrame_to_csv df path fs).1 !! path' = fs !! path'.
Proof.
  rewrite DataFrame_to_csv_unfold.
  destruct (os_write fs path (to_csv df)) as [|e [text|]]; simpl; split;
    try done; try (intros path' Hne; by rewrite lookup_insert_ne).
  - rewrite dom_insert_L. intros p Hp. rewrite elem_of_union. by right.
  - rewrite dom_insert_L. intros p Hp. rewrite elem_of_union. by right.
Qed.

(** *** The whole run *)

Lemma boiler_loaded csv_filename output_path fs c :
  Context_fromfile fs csv_filename = inr c →
  boiler csv_filename output_path fs
  = match maps_to_list concept_eq (lattice c) with
    | inl e => (fs, inl e)
    | inr m =>
        io_bind
          (DataFrame_to_csv (concept_df (concept_names (lattice c)))
             (output_path +:+ "concept.csv"))
          (λ _, DataFrame_to_csv (concept_relationship_df m)
                  (output_path +:+ "concept_relationship.csv")) fs
    end.
Proof.
  intros Hload. by rewrite boiler_unfold, Hload.
Qed.

Lemma boiler_not_loaded csv_filename output_path fs e :
  Context_fromfile fs csv_filename = inl e →
  boiler csv_filename output_path fs = (fs, inl e).
Proof.
  intros Hload. by rewrite boiler_unfold, Hload.
Qed.

(** The two writes in sequence return exactly when both are carried out. *)
Lemma two_writes_inr df1 path1 df2 path2 fs fs' :
  io_bind (DataFrame_to_csv df1 path1) (λ _, DataFrame_to_csv df2 path2) fs = (fs', inr ()) ↔
  os_write fs path1 (to_csv df1) = Written ∧
  os_write (<[path1 := to_csv df1]> fs) path2 (to_csv df2) = Written ∧
  fs' = <[path2 := to_csv df2]> (<[path1 := to_csv df1]> fs).
Proof.
  unfold io_bind.
  destruct (DataFrame_to_csv df1 path1 fs) as [fs1 [e|[]]] eqn:H1.
  - split; [done|]. intros (Hw & _ & _).
    assert (DataFrame_to_csv df1 path1 fs = (<[path1 := to_csv df1]> fs, inr ())) as H
      by by apply DataFrame_to_csv_inr.
    congruence.
  - apply DataFrame_to_csv_inr in H1 as [Hw ->].
    rewrite DataFrame_to_csv_inr. by split; [intros [? ?]|intros (_ & ? & ?)].
Qed.

(** When they raise, one of the two writes failed. *)
Lemma two_writes_inl df1 path1 df2 path2 fs fs' e :
  io_bind (DataFrame_to_csv df1 path1) (λ _, DataFrame_to_csv df2 path2) fs = (fs', inl e) →
  ∃ left,
    os_write fs path1 (to_csv df1) = Failed e left ∨
    (os_write fs path1 (to_csv df1) = Written ∧
     os_write (<[path1 := to_csv df1]> fs) path2 (to_csv df2) = Failed e left).
Proof.
  unfold io_bind.
  destruct (DataFrame_to_csv df1 path1 fs) as [fs1 [e'|[]]] eqn:H1.
  - intros [= <- <-]. apply DataFrame_to_csv_inl in H1 as (left & Hw & _).
    exists left. by left.
  - apply DataFrame_to_csv_inr in H1 as [Hw ->].
    intros (left & Hw2 & _)%DataFrame_to_csv_inl. exists left. by right.
Qed.

(** The two writes touch no path but their own and remove none. *)
Lemma two_writes_frame df1 path1 df2 path2 fs :
  dom fs ⊆ dom (io_bind (DataFrame_to_csv df1 path1)
                  (λ _, DataFrame_to_csv df2 path2) fs).1 ∧
  ∀ path, path ≠ path1 → path ≠ path2 →
    (io_bind (DataFrame_to_csv df1 path1)
       (λ _, DataFrame_to_csv df2 path2) fs).1 !! path = fs !! path.
Proof.
  unfold io_bind.
  pose proof (DataFrame_to_csv_frame df1 path1 fs) as [Hdom1 Hother1].
  destruct (DataFrame_to_csv df1 path1 fs) as [fs1 [e|[]]] eqn:H1; simpl in *.
  - split; [done|]. intros path Hp1 _. by apply Hother1.
  - pose proof (DataFrame_to_csv_frame df2 path2 fs1) as [Hdom2 Hother2].
    split.
    + by etrans.
    + intros path Hp1 Hp2. rewrite Hother2 by done. by apply Hother1.
Qed.

(** A run that returns has loaded a lattice, resolved every upper
    neighbour and carried out both writes. *)
Lemma boiler_returns csv_filename output_path fs fs' :
  boiler csv_filename output_path fs = (fs', inr ()) →
  ∃ c m, Context_fromfile fs csv_filename = inr c ∧
         maps_to_list concept_eq (lattice c) = inr m ∧
         fs' = written output_path (lattice c) m fs.
Proof.
  destruct (Context_fromfile fs csv_filename) as [e|c] eqn:Hload.
  - by rewrite (boiler_not_loaded _ _ _ _ Hload).
  - rewrite (boiler_loaded _ _ _ _ Hload).
    destruct (maps_to_list concept_eq (lattice c)) as [e|m] eqn:Hm; [done|].
    intros (_ & _ & ->)%two_writes_inr. by exists c, m.
Qed.

(** C4, as the code has it.  When an upper neighbour of an enumerated
    concept is a node that no enumerated concept is or compares equal to,
    the export raises [ValueError], the exception of [list.index], and
    leaves the file system as it was: neither output file is written. *)
Theorem dangling_neighbor_raises_ValueError
    (csv_filename output_path : string) (fs : FS) (c : Context) (con p : Concept) :
  Context_fromfile fs csv_filename = inr c →
  con ∈ lattice c → p ∈ upper_neighbors con →
  (∀ item, item ∈ lattice c → py_eq concept_eq item p = false) →
  boiler csv_filename output_path fs = (fs, inl ValueError).
Proof.
  intros Hload Hcon Hp Habsent. rewrite (boiler_loaded _ _ _ _ Hload).
  rewrite (maps_to_list_dangling concept_eq (lattice c) con p); [done..|].
  by apply Forall_forall.
Qed.

(** C5, as the code has it.  When the enumeration yields no concept nothing
    is checked and nothing raised on that account: both tables have their
    header and no row, the export goes on to write them and returns when
    both writes are carried out; what it can raise is the error of a
    write. *)
Theorem empty_lattice_exports_empty_tables
    (csv_filename output_path : string) (fs : FS) (c : Context) :
  Context_fromfile fs csv_filename = inr c →
  lattice c = [] →
  maps_to_list concept_eq (lattice c) = inr [] ∧
  df_columns (concept_df (concept_names (lattice c))) = ["id"; "concept_name"] ∧
  df_rows (concept_df (concept_names (lattice c))) = [] ∧
  df_columns (concept_relationship_df []) = ["id_1"; "relationship"; "id_2"] ∧
  df_rows (concept_relationship_df []) = [] ∧
  (os_write fs (output_path +:+ "concept.csv") (to_csv (concept_df [])) = Written →
   os_write (<[output_path +:+ "concept.csv" := to_csv (concept_df [])]> fs)
     (output_path +:+ "concept_relationship.csv")
     (to_csv (concept_relationship_df [])) = Written →
   boiler csv_filename output_path fs
   = (<[output_path +:+ "concept_relationship.csv" := to_csv (concept_relationship_df [])]>
        (<[output_path +:+ "concept.csv" := to_csv (concept_df [])]> fs), inr ())) ∧
  (∀ fs' e, boiler csv_filename output_path fs = (fs', inl e) →
     ∃ left,
       os_write fs (output_path +:+ "concept.csv") (to_csv (concept_df []))
         = Failed e left ∨
       (os_write fs (output_path +:+ "concept.csv") (to_csv (concept_df [])) = Written ∧
        os_write (<[output_path +:+ "concept.csv" := to_csv (concept_df [])]> fs)
          (output_path +:+ "concept_relationship.csv")
          (to_csv (concept_relationship_df [])) = Failed e left)).
Proof.
  intros Hload Hempty. rewrite (boiler_loaded _ _ _ _ Hload), Hempty.
  change (maps_to_list concept_eq []) with (inr [] : result (list (nat * nat))).
  change (concept_names []) with ([] : list string).
  split_and!; [done..| |].
  - intros H1 H2. by apply two_writes_inr.
  - intros fs' e. apply two_writes_inl.
Qed.

(** C9. A run that returns has written two files and touched no other:
    the node table at the prefix followed by ["concept.csv"], the edge
    table at the prefix followed by ["concept_relationship.csv"]; the two
    paths differ, and every row of the edge table has the literal ["Is a"]
    as its [relationship]. *)
Theorem export_writes_two_artifacts
    (csv_filename output_path : string) (fs fs' : FS) :
  boiler csv_filename output_path fs = (fs', inr ()) →
  ∃ c m,
    Context_fromfile fs csv_filename = inr c ∧
    maps_to_list concept_eq (lattice c) = inr m ∧
    fs' !! (output_path +:+ "concept.csv")
      = Some (to_csv (concept_df (concept_names (lattice c)))) ∧
    fs' !! (output_path +:+ "concept_relationship.csv")
      = Some (to_csv (concept_relationship_df m)) ∧
    output_path +:+ "concept.csv" ≠ output_path +:+ "concept_relationship.csv" ∧
    (∀ path, path ≠ output_path +:+ "concept.csv" →
             path ≠ output_path +:+ "concept_relationship.csv" →
             fs' !! path = fs !! path) ∧
    df_columns (concept_relationship_df m) = ["id_1"; "relationship"; "id_2"] ∧
    df_column (concept_relationship_df m) "relationship"
      = Some (replicate (length m) (Str "Is a")) ∧
    (∀ row, row ∈ df_rows (concept_relationship_df m) → row !! 1 = Some (Str "Is a")).
Proof.
  intros (c & m & Hload & Hm & ->)%boiler_returns.
  pose proof (destinations_differ output_path) as Hne.
  exists c, m. split_and!; [done|done| |  |done| |done|done|].
  - rewrite lookup_insert_ne by done. apply lookup_insert_eq.
  - apply lookup_insert_eq.
  - intros path H1 H2. by rewrite !lookup_insert_ne.
  - intros row. rewrite concept_relationship_df_rows.
    by intros (e & -> & _)%list_elem_of_fmap.
Qed.

(** C8. Two runs over the same lattice, enumerated in the same order with
    the same order of upper neighbours, whatever file they load it from and
    whatever the file system holds: if index resolution raises in one it
    raises the same in the other, before any write; when both return, each
    destination holds the same text after both, that of the same node rows
    and of the same edge rows in the same order; and a run over the files a
    returned run left, when it returns, has changed nothing. *)
Theorem export_is_deterministic
    (csv_filename1 csv_filename2 output_path : string) (fs1 fs2 : FS)
    (c1 c2 : Context) :
  Context_fromfile fs1 csv_filename1 = inr c1 →
  Context_fromfile fs2 csv_filename2 = inr c2 →
  lattice c1 = lattice c2 →
  (∀ e, maps_to_list concept_eq (lattice c1) = inl e →
     boiler csv_filename1 output_path fs1 = (fs1, inl e) ∧
     boiler csv_filename2 output_path fs2 = (fs2, inl e)) ∧
  (∀ fs1' fs2',
     boiler csv_filename1 output_path fs1 = (fs1', inr ()) →
     boiler csv_filename2 output_path fs2 = (fs2', inr ()) →
     ∃ m, maps_to_list concept_eq (lattice c1) = inr m ∧
       fs1' !! (output_path +:+ "concept.csv")
         = Some (to_csv (concept_df (concept_names (lattice c1)))) ∧
       fs2' !! (output_path +:+ "concept.csv")
         = fs1' !! (output_path +:+ "concept.csv") ∧
       fs1' !! (output_path +:+ "concept_relationship.csv")
         = Some (to_csv (concept_relationship_df m)) ∧
       fs2' !! (output_path +:+ "concept_relationship.csv")
         = fs1' !! (output_path +:+ "concept_relationship.csv")) ∧
  (∀ fs1' fs1'',
     boiler csv_filename1 output_path fs1 = (fs1', inr ()) →
     Context_fromfile fs1' csv_filename1 = inr c1 →
     boiler csv_filename1 output_path fs1' = (fs1'', inr ()) →
     fs1'' = fs1').
Proof.
  intros Hload1 Hload2 Hsame.
  pose proof (destinations_differ output_path) as Hne.
  split_and!.
  - intros e He. rewrite (boiler_loaded _ _ _ _ Hload1), (boiler_loaded _ _ _ _ Hload2).
    by rewrite <- Hsame, He.
  - intros fs1' fs2' (c1' & m1 & Hl1 & Hm1 & ->)%boiler_returns
      (c2' & m2 & Hl2 & Hm2 & ->)%boiler_returns.
    assert (c1' = c1) as -> by congruence. assert (c2' = c2) as -> by congruence.
    assert (m2 = m1) as -> by (rewrite <- Hsame in Hm2; congruence).
    exists m1. rewrite <- Hsame. split_and!; [done|..].
    + rewrite lookup_insert_ne by done. apply lookup_insert_eq.
    + rewrite !(lookup_insert_ne _ (output_path +:+ "concept_relationship.csv")) by done.
      by rewrite !lookup_insert_eq.
    + apply lookup_insert_eq.
    + by rewrite !lookup_insert_eq.
  - intros fs1' fs1'' (c1' & m1 & Hl1 & Hm1 & ->)%boiler_returns Hload
      (c1'' & m1' & Hl1' & Hm1' & ->)%boiler_returns.
    assert (c1' = c1) as -> by congruence. assert (c1'' = c1) as -> by congruence.
    assert (m1' = m1) as -> by congruence.
    apply map_eq. intros path.
    destruct (decide (path = output_path +:+ "concept_relationship.csv")) as [->|H2].
    { by rewrite !lookup_insert_eq. }
    rewrite !(lookup_insert_ne _ (output_path +:+ "concept_relationship.csv")) by done.
    destruct (decide (path = output_path +:+ "concept.csv")) as [->|H1].
    { by rewrite !lookup_insert_eq. }
    by rewrite !lookup_insert_ne by done.
Qed.

End Exporter.

Lemma dangling_neighbor_raises_ValueError_sample :
  boiler object_eq (Sample.load Sample.dangling) Sample.render Sample.disk
    "relation.csv" "out/" ∅
  = (∅, inl ValueError).
Proof.
  apply (dangling_neighbor_raises_ValueError object_eq (Sample.load Sample.dangling)
           Sample.render Sample.disk "relation.csv" "out/" ∅ (mkContext Sample.dangling)
           Sample.orphan Sample.stray).
  - reflexivity.
  - simpl. right. left.
  - simpl. left.
  - apply (proj1 (Forall_forall (λ item, py_eq object_eq item Sample.stray = false)
                    Sample.dangling)).
    by apply (bool_decide_unpack
      (Forall (λ item, py_eq object_eq item Sample.stray = false) Sample.dangling)).
Defined.

(** The exception of a dangling upper neighbour is [ValueError]; no
    [DanglingReferenceError] is raised. *)
Lemma dangling_neighbor_not_DanglingReferenceError :
  Sample.orphan ∈ Sample.dangling ∧
  Sample.stray ∈ upper_neighbors Sample.orphan ∧
  ¬ enumerated Sample.dangling Sample.stray ∧
  ∃ e, boiler object_eq (Sample.load Sample.dangling) Sample.render Sample.disk
         "relation.csv" "out/" ∅ = (∅, inl e) ∧
       exc_class e = "ValueError" ∧
       exc_class e ≠ "DanglingReferenceError".
Proof.
  split_and!.
  - right. left.
  - left.
  - unfold enumerated.
    by apply (bool_decide_unpack (obj_id Sample.stray ∉ ids Sample.dangling)).
  - exists ValueError. split_and!; [reflexivity|reflexivity|discriminate].
Qed.

Lemma empty_lattice_exports_empty_tables_sample :
  maps_to_list object_eq (lattice (mkContext [])) = inr [] ∧
  df_columns (concept_df (concept_names (lattice (mkContext []))))
    = ["id"; "concept_name"] ∧
  df_rows (concept_df (concept_names (lattice (mkContext [])))) = [] ∧
  df_columns (concept_relationship_df []) = ["id_1"; "relationship"; "id_2"] ∧
  df_rows (concept_relationship_df []) = [] ∧
  (Sample.disk ∅ ("out/" +:+ "concept.csv") (Sample.render (concept_df [])) = Written →
   Sample.disk (<["out/" +:+ "concept.csv" := Sample.render (concept_df [])]> ∅)
     ("out/" +:+ "concept_relationship.csv")
     (Sample.render (concept_relationship_df [])) = Written →
   boiler object_eq (Sample.load []) Sample.render Sample.disk "relation.csv" "out/" ∅
   = (<["out/" +:+ "concept_relationship.csv" := Sample.render (concept_relationship_df [])]>
        (<["out/" +:+ "concept.csv" := Sample.render (concept_df [])]> ∅), inr ())) ∧
  (∀ fs' e,
     boiler object_eq (Sample.load []) Sample.render Sample.disk "relation.csv" "out/" ∅
       = (fs', inl e) →
     ∃ left,
       Sample.disk ∅ ("out/" +:+ "concept.csv") (Sample.render (concept_df []))
         = Failed e left ∨
       (Sample.disk ∅ ("out/" +:+ "concept.csv") (Sample.render (concept_df [])) = Written ∧
        Sample.disk (<["out/" +:+ "concept.csv" := Sample.render (concept_df [])]> ∅)
          ("out/" +:+ "concept_relationship.csv")
          (Sample.render (concept_relationship_df [])) = Failed e left)).
Proof.
  apply (empty_lattice_exports_empty_tables object_eq (Sample.load []) Sample.render
           Sample.disk "relation.csv" "out/" ∅ (mkContext [])); reflexivity.
Defined.

(** On a lattice without concepts and a file system that takes both
    writes the export returns and both files exist; no
    [InvalidLatticeError] is raised. *)
Lemma empty_lattice_does_not_fail :
  lattice (mkContext []) = [] ∧
  ∃ fs', boiler object_eq (Sample.load []) Sample.render Sample.disk
           "relation.csv" "out/" ∅ = (fs', inr ()) ∧
    is_Some (fs' !! "out/concept.csv") ∧
    is_Some (fs' !! "out/concept_relationship.csv").
Proof.
  split; [done|].
  exists (<["out/concept_relationship.csv" := Sample.render (concept_relationship_df [])]>
            (<["out/concept.csv" := Sample.render (concept_df [])]> ∅)).
  split_and!.
  - reflexivity.
  - rewrite lookup_insert_ne by done. rewrite lookup_insert_eq. by eexists.
  - rewrite lookup_insert_eq. by eexists.
Qed.

Lemma export_writes_two_artifacts_chain :
  ∃ c m,
    Sample.load Sample.chain ∅ "relation.csv" = inr c ∧
    maps_to_list object_eq (lattice c) = inr m ∧
    (boiler object_eq (Sample.load Sample.chain) Sample.render Sample.disk
       "relation.csv" "out/" ∅).1
      !! "out/concept.csv"
      = Some (Sample.render (concept_df (concept_names (lattice c)))) ∧
    (boiler object_eq (Sample.load Sample.chain) Sample.render Sample.disk
       "relation.csv" "out/" ∅).1
      !! "out/concept_relationship.csv"
      = Some (Sample.render (concept_relationship_df m)) ∧
    "out/concept.csv" ≠ "out/concept_relationship.csv" ∧
    (∀ path, path ≠ "out/concept.csv" → path ≠ "out/concept_relationship.csv" →
       (boiler object_eq (Sample.load Sample.chain) Sample.render Sample.disk
          "relation.csv" "out/" ∅).1
         !! path = (∅ : FS) !! path) ∧
    df_columns (concept_relationship_df m) = ["id_1"; "relationship"; "id_2"] ∧
    df_column (concept_relationship_df m) "relationship"
      = Some (replicate (length m) (Str "Is a")) ∧
    (∀ row, row ∈ df_rows (concept_relationship_df m) → row !! 1 = Some (Str "Is a")).
Proof.
  apply (export_writes_two_artifacts object_eq (Sample.load Sample.chain) Sample.render
           Sample.disk "relation.csv" "out/" ∅). reflexivity.
Defined.

Lemma export_is_deterministic_chain :
  let stale : FS := {["out/concept.csv" := "stale"]} in
  let run (csv_filename : string) (fs : FS) :=
    boiler object_eq (Sample.load Sample.chain) Sample.render Sample.disk
      csv_filename "out/" fs in
  (∀ e, maps_to_list object_eq Sample.chain = inl e →
     run "relation.csv" ∅ = (∅, inl e) ∧ run "copy.csv" stale = (stale, inl e)) ∧
  (∀ fs1' fs2',
     run "relation.csv" ∅ = (fs1', inr ()) →
     run "copy.csv" stale = (fs2', inr ()) →
     ∃ m, maps_to_list object_eq Sample.chain = inr m ∧
       fs1' !! ("out/" +:+ "concept.csv")
         = Some (Sample.render (concept_df (concept_names Sample.chain))) ∧
       fs2' !! ("out/" +:+ "concept.csv") = fs1' !! ("out/" +:+ "concept.csv") ∧
       fs1' !! ("out/" +:+ "concept_relationship.csv")
         = Some (Sample.render (concept_relationship_df m)) ∧
       fs2' !! ("out/" +:+ "concept_relationship.csv")
         = fs1' !! ("out/" +:+ "concept_relationship.csv")) ∧
  (∀ fs1' fs1'',
     run "relation.csv" ∅ = (fs1', inr ()) →
     Sample.load Sample.chain fs1' "relation.csv" = inr (mkContext Sample.chain) →
     run "relation.csv" fs1' = (fs1'', inr ()) →
     fs1'' = fs1').
Proof.
  apply (export_is_deterministic object_eq (Sample.load Sample.chain) Sample.render
           Sample.disk "relation.csv" "copy.csv" "out/" ∅ {["out/concept.csv" := "stale"]}
           (mkContext Sample.chain) (mkContext Sample.chain)); reflexivity.
Defined.

(** ** Extents *)

Lemma erase_extent_obj_id c : obj_id (erase_extent c) = obj_id c.
Proof. by destruct c. Qed.

Lemma erase_extent_intent c : intent (erase_extent c) = intent c.
Proof. by destruct c. Qed.

Lemma erase_extent_upper_neighbors c :
  upper_neighbors (erase_extent c) = erase_extent <$> upper_neighbors c.
Proof. by destruct c. Qed.

Lemma fmap_eq_Forall2 {A B} (f : A → B) (l k : list A) :
  f <$> l = f <$> k → Forall2 (λ a b, f a = f b) l k.
Proof.
  revert k. induction l as [|a l IH]; intros [|b k] Heq; simpl in Heq;
    [constructor|discriminate Heq|discriminate Heq|].
  injection Heq as Hab Hlk. constructor; [done|by apply IH].
Qed.

Lemma comprehension_Forall2 {A A' B} (f : A → result B) (g : A' → result B) l k :
  Forall2 (λ a b, f a = g b) l k → comprehension f l = comprehension g k.
Proof. induction 1 as [|a b l k Hab _ IH]; simpl; [done|]. by rewrite Hab, IH. Qed.

Lemma enumerate_agree {A} (R : A → A → Prop) (l k : list A) :
  Forall2 R l k →
  Forall2 (λ ix iy, ix.1 = iy.1 ∧ R ix.2 iy.2) (enumerate l) (enumerate k).
Proof.
  intros Hlk. apply Forall2_same_length_lookup_2.
  - unfold enumerate. rewrite !length_imap. by eapply Forall2_length.
  - intros i [ix x] [iy y] [-> Hx]%enumerate_lookup [-> Hy]%enumerate_lookup.
    split; [done|]. simpl. by eapply Forall2_lookup_lr.
Qed.

Section Extents.

Variable concept_eq : Concept → Concept → bool.
Hypothesis blind : extent_blind concept_eq.

Local Abbreviation same a b := (erase_extent a = erase_extent b).

Lemma py_eq_agree a a' b b' :
  same a a' → same b b' → py_eq concept_eq a b = py_eq concept_eq a' b'.
Proof.
  intros Ha Hb. unfold py_eq.
  rewrite (blind a b), (blind a' b'), Ha, Hb.
  rewrite <- (erase_extent_obj_id a), <- (erase_extent_obj_id b), Ha, Hb.
  by rewrite !erase_extent_obj_id.
Qed.

Lemma list_index_agree l l' p p' :
  Forall2 (λ a b, same a b) l l' → same p p' →
  list_index concept_eq l p = list_index concept_eq l' p'.
Proof.
  intros Hl Hp. induction Hl as [|x x' l l' Hx _ IH]; simpl; [done|].
  by rewrite (py_eq_agree x x' p p'), IH.
Qed.

Lemma parent_concept_indexes_agree l l' con con' :
  Forall2 (λ a b, same a b) l l' → same con con' →
  parent_concept_indexes concept_eq l con = parent_concept_indexes concept_eq l' con'.
Proof.
  intros Hl Hcon. unfold parent_concept_indexes.
  apply comprehension_Forall2.
  assert (Forall2 (λ a b, same a b) (upper_neighbors con) (upper_neighbors con')) as Hups.
  { apply fmap_eq_Forall2. by rewrite <- !erase_extent_upper_neighbors, Hcon. }
  eapply Forall2_impl; [exact Hups|]. intros p p' Hp. by apply list_index_agree.
Qed.

Lemma maps_to_list_loop_agree l l' items items' acc :
  Forall2 (λ a b, same a b) l l' →
  Forall2 (λ ix iy, ix.1 = iy.1 ∧ same ix.2 iy.2) items items' →
  maps_to_list_loop concept_eq l items acc = maps_to_list_loop concept_eq l' items' acc.
Proof.
  intros Hl Hitems. revert acc.
  induction Hitems as [|[i con] [i' con'] items items' [Hi Hcon] _ IH]; intros acc;
    simpl in *; [done|].
  subst i'. rewrite (parent_concept_indexes_agree l l' con con') by done.
  unfold result_bind. destruct (parent_concept_indexes concept_eq l' con'); [done|].
  apply IH.
Qed.

Lemma concept_names_agree l l' :
  agree_up_to_extent l l' → concept_names l = concept_names l'.
Proof.
  intros Hl%fmap_eq_Forall2. unfold concept_names.
  induction Hl as [|x x' l l' Hx _ IH]; [done|].
  rewrite !fmap_cons. f_equal; [|exact IH].
  unfold get_concept_name.
  by rewrite <- (erase_extent_intent x), <- (erase_extent_intent x'), Hx.
Qed.

(** C10. Two lattices that agree on the enumeration order, on every intent
    and on every set of upper neighbours give the same node table and the
    same edge table (or the same exception), whatever their extents, and so
    the same result and files; node equality is taken not to read extents,
    as the identity equality of a class without [__eq__] does not. *)
Theorem export_ignores_extents (l1 l2 : list Concept) :
  agree_up_to_extent l1 l2 →
  concept_df (concept_names l1) = concept_df (concept_names l2) ∧
  maps_to_list concept_eq l1 = maps_to_list concept_eq l2 ∧
  (∀ (Context_fromfile : FS → string → result Context) (to_csv : DataFrame → string)
     (os_write : FS → string → string → write_outcome)
     (csv_filename1 csv_filename2 output_path : string) (fs : FS),
     Context_fromfile fs csv_filename1 = inr (mkContext l1) →
     Context_fromfile fs csv_filename2 = inr (mkContext l2) →
     boiler concept_eq Context_fromfile to_csv os_write csv_filename1 output_path fs
     = boiler concept_eq Context_fromfile to_csv os_write csv_filename2 output_path fs).
Proof.
  intros Hagree.
  assert (maps_to_list concept_eq l1 = maps_to_list concept_eq l2) as Hedges.
  { unfold maps_to_list. apply fmap_eq_Forall2 in Hagree as Hl.
    apply maps_to_list_loop_agree; [done|].
    by apply (enumerate_agree (λ a b, same a b)). }
  pose proof (concept_names_agree l1 l2 Hagree) as Hnames.
  split_and!; [by rewrite Hnames|done|].
  intros Context_fromfile to_csv os_write csv1 csv2 out fs Hload1 Hload2.
  rewrite (boiler_loaded _ _ _ _ _ _ _ _ Hload1), (boiler_loaded _ _ _ _ _ _ _ _ Hload2).
  simpl. by rewrite Hedges, Hnames.
Qed.

End Extents.

Lemma export_ignores_extents_chain :
  concept_df (concept_names Sample.chain) = concept_df (concept_names Sample.chain') ∧
  maps_to_list object_eq Sample.chain = maps_to_list object_eq Sample.chain' ∧
  (∀ (Context_fromfile : FS → string → result Context) (to_csv : DataFrame → string)
     (os_write : FS → string → string → write_outcome)
     (csv_filename1 csv_filename2 output_path : string) (fs : FS),
     Context_fromfile fs csv_filename1 = inr (mkContext Sample.chain) →
     Context_fromfile fs csv_filename2 = inr (mkContext Sample.chain') →
     boiler object_eq Context_fromfile to_csv os_write csv_filename1 output_path fs
     = boiler object_eq Context_fromfile to_csv os_write csv_filename2 output_path fs).
Proof.
  apply (export_ignores_extents object_eq).
  - intros a b. reflexivity.
  - reflexivity.
Defined.

(** * Further properties of the exporter *)

(** ** Names *)

Lemma join_sep_app sep (l1 l2 : list string) :
  l1 ≠ [] → l2 ≠ [] → join sep (l1 ++ l2) = join sep l1 +:+ sep +:+ join sep l2.
Proof.
  intros H1 H2. induction l1 as [|s l1 IH]; [done|].
  destruct l1 as [|s' l1].
  - destruct l2 as [|t l2]; [done|]. reflexivity.
  - change (join sep ((s :: s' :: l1) ++ l2))
      with (s +:+ sep +:+ join sep ((s' :: l1) ++ l2)).
    rewrite IH by done. rewrite join_cons. by rewrite !string_app_assoc.
Qed.

(** X9.  The name of a concept whose intent is one intent followed by another
    is the two names around a separator. *)
Theorem concept_name_of_appended_intents (c c1 c2 : Concept) :
  intent c1 ≠ [] → intent c2 ≠ [] →
  intent c = intent c1 ++ intent c2 →
  get_concept_name c = get_concept_name c1 +:+ "; " +:+ get_concept_name c2.
Proof.
  intros H1 H2 Hc. unfold get_concept_name. rewrite Hc. by apply join_sep_app.
Qed.

Lemma concept_name_of_appended_intents_bottom :
  get_concept_name Sample.bottom
  = get_concept_name Sample.middle +:+ "; " +:+ get_concept_name (mkConcept 0 ["b"] [] []).
Proof.
  by apply (concept_name_of_appended_intents Sample.bottom Sample.middle
              (mkConcept 0 ["b"] [] [])).
Defined.

(** X10.  The name does not determine the intent: two attributes and the single
    attribute spelled as their joined text give the same name. *)
Theorem concept_name_merges_attributes
    (i i' : oid) (a b : string) (rest ext ext' : list string) (ups ups' : list Concept) :
  get_concept_name (mkConcept i (a :: b :: rest) ext ups)
  = get_concept_name (mkConcept i' ((a +:+ "; " +:+ b) :: rest) ext' ups').
Proof.
  unfold get_concept_name. simpl intent. destruct rest as [|c rest].
  - reflexivity.
  - rewrite !join_cons. by rewrite !string_app_assoc.
Qed.

(** ** When the export returns and when it raises *)

Section Outcomes.

Variable concept_eq : Concept → Concept → bool.
Variable Context_fromfile : FS → string → result Context.
Variable to_csv : DataFrame → string.
Variable os_write : FS → string → string → write_outcome.

Local Abbreviation boiler := (boiler concept_eq Context_fromfile to_csv os_write).

Lemma list_index_succeeds cl p :
  (∃ j, list_index concept_eq cl p = inr j) ↔
  ∃ item, item ∈ cl ∧ py_eq concept_eq item p = true.
Proof.
  split.
  - intros [j (item & Hj & Heq & _)%list_index_inr]. exists item.
    split; [|done]. apply list_elem_of_lookup. by exists j.
  - intros (item & Hin & Heq).
    destruct (list_index concept_eq cl p) as [e|j] eqn:Hidx; [|by eexists].
    apply list_index_inl in Hidx as [_ Hall].
    rewrite Forall_forall in Hall. specialize (Hall item Hin). congruence.
Qed.

Lemma maps_to_list_succeeds cl :
  (∃ m, maps_to_list concept_eq cl = inr m) ↔
  ∀ con p, con ∈ cl → p ∈ upper_neighbors con →
    ∃ item, item ∈ cl ∧ py_eq concept_eq item p = true.
Proof.
  split.
  - intros [m Hm] con p Hcon Hp. apply (proj1 (list_index_succeeds cl p)).
    destruct (list_index concept_eq cl p) as [e|j] eqn:Hidx; [|by eexists].
    apply list_index_inl in Hidx as [_ Hall].
    rewrite (maps_to_list_dangling concept_eq cl con p) in Hm; done.
  - intros Hall. apply maps_to_list_resolvable.
    intros con p Hcon Hp. apply (proj2 (list_index_succeeds cl p)).
    by apply (Hall con p).
Qed.

(** X1.  The export returns exactly when the lattice loads, every upper
    neighbour of every enumerated concept is matched by an enumerated
    concept, one that is the neighbour or compares equal to it, and both
    writes are carried out, the second on the file system the first
    left. *)
Theorem export_returns_iff (csv_filename output_path : string) (fs : FS) :
  (∃ fs', boiler csv_filename output_path fs = (fs', inr ())) ↔
  ∃ c m, Context_fromfile fs csv_filename = inr c ∧
    (∀ con p, con ∈ lattice c → p ∈ upper_neighbors con →
       ∃ item, item ∈ lattice c ∧ py_eq concept_eq item p = true) ∧
    maps_to_list concept_eq (lattice c) = inr m ∧
    os_write fs (output_path +:+ "concept.csv")
      (to_csv (concept_df (concept_names (lattice c)))) = Written ∧
    os_write
      (<[output_path +:+ "concept.csv"
           := to_csv (concept_df (concept_names (lattice c)))]> fs)
      (output_path +:+ "concept_relationship.csv")
      (to_csv (concept_relationship_df m)) = Written.
Proof.
  split.
  - intros [fs' Hrun].
    destruct (Context_fromfile fs csv_filename) as [e|c] eqn:Hload.
    { by rewrite (boiler_not_loaded _ _ _ _ _ _ _ _ Hload) in Hrun. }
    rewrite (boiler_loaded _ _ _ _ _ _ _ _ Hload) in Hrun.
    destruct (maps_to_list concept_eq (lattice c)) as [e|m] eqn:Hm; [done|].
    apply two_writes_inr in Hrun as (H1 & H2 & _).
    exists c, m. split_and!; [done| |done..].
    apply (proj1 (maps_to_list_succeeds (lattice c))). by exists m.
  - intros (c & m & Hload & _ & Hm & H1 & H2).
    rewrite (boiler_loaded _ _ _ _ _ _ _ _ Hload), Hm.
    eexists. by apply two_writes_inr.
Qed.

(** X2.  Where an exception of the export comes from: it is the loader's,
    or the [ValueError] of [list.index] for an upper neighbour that no
    enumerated concept matches, and in both cases nothing has been written;
    or it is the error of one of the two writes, the second attempted only
    after the node table was written. *)
Theorem export_failure_provenance
    (csv_filename output_path : string) (fs fs' : FS) (e : exception) :
  boiler csv_filename output_path fs = (fs', inl e) →
  (Context_fromfile fs csv_filename = inl e ∧ fs' = fs) ∨
  (∃ c con p, Context_fromfile fs csv_filename = inr c ∧ e = ValueError ∧
     con ∈ lattice c ∧ p ∈ upper_neighbors con ∧
     Forall (λ item, py_eq concept_eq item p = false) (lattice c) ∧ fs' = fs) ∨
  (∃ c m left, Context_fromfile fs csv_filename = inr c ∧
     maps_to_list concept_eq (lattice c) = inr m ∧
     (os_write fs (output_path +:+ "concept.csv")
        (to_csv (concept_df (concept_names (lattice c)))) = Failed e left ∨
      (os_write fs (output_path +:+ "concept.csv")
         (to_csv (concept_df (concept_names (lattice c)))) = Written ∧
       os_write
         (<[output_path +:+ "concept.csv"
              := to_csv (concept_df (concept_names (lattice c)))]> fs)
         (output_path +:+ "concept_relationship.csv")
         (to_csv (concept_relationship_df m)) = Failed e left))).
Proof.
  destruct (Context_fromfile fs csv_filename) as [e'|c] eqn:Hload.
  - rewrite (boiler_not_loaded _ _ _ _ _ _ _ _ Hload). intros [= <- <-]. by left.
  - rewrite (boiler_loaded _ _ _ _ _ _ _ _ Hload).
    destruct (maps_to_list concept_eq (lattice c)) as [e'|m] eqn:Hm.
    + intros [= <- <-]. right. left.
      apply maps_to_list_inl in Hm as (-> & con & p & Hcon & Hp & Hall).
      by exists c, con, p.
    + intros [left Hw]%two_writes_inl. right. right. by exists c, m, left.
Qed.

(** X3.  The export never removes a file: every path that existed still exists,
    and every file other than the two destinations keeps its contents;
    when the export returns, the paths are the old ones and the two
    destinations. *)
Theorem export_never_deletes
    (csv_filename output_path : string) (fs fs' : FS) (r : result unit) :
  boiler csv_filename output_path fs = (fs', r) →
  dom fs ⊆ dom fs' ∧
  (∀ path, path ≠ output_path +:+ "concept.csv" →
           path ≠ output_path +:+ "concept_relationship.csv" →
           fs' !! path = fs !! path) ∧
  (r = inr () →
   dom fs' = {[ output_path +:+ "concept.csv";
                output_path +:+ "concept_relationship.csv" ]} ∪ dom fs).
Proof.
  intros Hrun. split_and!.
  - destruct (Context_fromfile fs csv_filename) as [e|c] eqn:Hload.
    { rewrite (boiler_not_loaded _ _ _ _ _ _ _ _ Hload) in Hrun. by injection Hrun as <- _. }
    rewrite (boiler_loaded _ _ _ _ _ _ _ _ Hload) in Hrun.
    destruct (maps_to_list concept_eq (lattice c)) as [e|m]; [by injection Hrun as <- _|].
    pose proof (two_writes_frame to_csv os_write
      (concept_df (concept_names (lattice c))) (output_path +:+ "concept.csv")
      (concept_relationship_df m) (output_path +:+ "concept_relationship.csv") fs) as [Hdom _].
    by rewrite Hrun in Hdom.
  - destruct (Context_fromfile fs csv_filename) as [e|c] eqn:Hload.
    { rewrite (boiler_not_loaded _ _ _ _ _ _ _ _ Hload) in Hrun. by injection Hrun as <- _. }
    rewrite (boiler_loaded _ _ _ _ _ _ _ _ Hload) in Hrun.
    destruct (maps_to_list concept_eq (lattice c)) as [e|m]; [by injection Hrun as <- _|].
    pose proof (two_writes_frame to_csv os_write
      (concept_df (concept_names (lattice c))) (output_path +:+ "concept.csv")
      (concept_relationship_df m) (output_path +:+ "concept_relationship.csv") fs) as [_ Hother].
    by rewrite Hrun in Hother.
  - intros ->. apply boiler_returns in Hrun as (c & m & _ & _ & ->).
    rewrite !dom_insert_L. apply set_eq. intros path.
    rewrite !elem_of_union, !elem_of_singleton. tauto.
Qed.

(** X4.  A lattice none of whose concepts has an upper neighbour, a single
    concept for one, always resolves, to an edge table without rows. *)
Theorem no_upper_neighbors_no_edges (concept_list : list Concept) :
  Forall (λ con, upper_neighbors con = []) concept_list →
  maps_to_list concept_eq concept_list = inr [] ∧
  df_rows (concept_relationship_df []) = [].
Proof.
  intros Hnone. split; [|done]. rewrite Forall_forall in Hnone.
  destruct (maps_to_list_resolvable concept_eq concept_list) as [m Hm].
  { intros con p Hcon Hp. rewrite (Hnone con Hcon) in Hp. by apply elem_of_nil in Hp. }
  rewrite Hm. f_equal. apply length_zero_iff_nil.
  rewrite (maps_to_list_length _ _ _ Hm).
  clear Hm. induction concept_list as [|con cl IH]; [done|]. simpl.
  rewrite (Hnone con) by left. simpl. apply IH.
  intros con' Hin. apply Hnone. by right.
Qed.

End Outcomes.

Lemma export_failure_provenance_sample :
  (Sample.load Sample.chain ∅ "relation.csv" = inl Sample.OSError ∧
   (<["out/concept.csv" := Sample.render (concept_df (concept_names Sample.chain))]> ∅ : FS)
   = ∅) ∨
  (∃ c con p, Sample.load Sample.chain ∅ "relation.csv" = inr c ∧
     Sample.OSError = ValueError ∧
     con ∈ lattice c ∧ p ∈ upper_neighbors con ∧
     Forall (λ item, py_eq object_eq item p = false) (lattice c) ∧
     (<["out/concept.csv" := Sample.render (concept_df (concept_names Sample.chain))]> ∅ : FS)
     = ∅) ∨
  (∃ c m left, Sample.load Sample.chain ∅ "relation.csv" = inr c ∧
     maps_to_list object_eq (lattice c) = inr m ∧
     (Sample.no_relationship ∅ ("out/" +:+ "concept.csv")
        (Sample.render (concept_df (concept_names (lattice c))))
        = Failed Sample.OSError left ∨
      (Sample.no_relationship ∅ ("out/" +:+ "concept.csv")
         (Sample.render (concept_df (concept_names (lattice c)))) = Written ∧
       Sample.no_relationship
         (<["out/" +:+ "concept.csv"
              := Sample.render (concept_df (concept_names (lattice c)))]> ∅)
         ("out/" +:+ "concept_relationship.csv")
         (Sample.render (concept_relationship_df m)) = Failed Sample.OSError left))).
Proof.
  apply (export_failure_provenance object_eq (Sample.load Sample.chain) Sample.render
           Sample.no_relationship "relation.csv" "out/" ∅
           (<["out/concept.csv" := Sample.render (concept_df (concept_names Sample.chain))]> ∅)
           Sample.OSError).
  reflexivity.
Defined.

Lemma export_never_deletes_sample :
  let fs : FS := {[ "notes.txt" := "keep" ]} in
  let run := boiler object_eq (Sample.load Sample.chain) Sample.render Sample.disk
               "relation.csv" "out/" fs in
  dom fs ⊆ dom run.1 ∧
  (∀ path, path ≠ "out/" +:+ "concept.csv" →
           path ≠ "out/" +:+ "concept_relationship.csv" →
           run.1 !! path = fs !! path) ∧
  (run.2 = inr () →
   dom run.1 = {[ "out/" +:+ "concept.csv"; "out/" +:+ "concept_relationship.csv" ]}
               ∪ dom fs).
Proof.
  apply (export_never_deletes object_eq (Sample.load Sample.chain) Sample.render
           Sample.disk "relation.csv" "out/" {[ "notes.txt" := "keep" ]}).
  reflexivity.
Defined.

Lemma no_upper_neighbors_no_edges_single :
  maps_to_list object_eq [Sample.top] = inr [] ∧
  df_rows (concept_relationship_df []) = [].
Proof.
  apply (no_upper_neighbors_no_edges object_eq [Sample.top]).
  by repeat constructor.
Defined.

(** ** Order and grouping of the edge rows *)

Lemma enumerate_fst {A} (l : list A) : fst <$> enumerate l = seq 0 (length l).
Proof.
  apply list_eq. intros k. unfold enumerate.
  rewrite list_lookup_fmap, list_lookup_imap.
  destruct (l !! k) as [x|] eqn:Hk; simpl.
  - rewrite lookup_seq_lt; [done|]. by eapply lookup_lt_Some.
  - rewrite lookup_seq_ge; [done|]. by apply lookup_ge_None.
Qed.

Lemma seq_StronglySorted a n : StronglySorted le (seq a n).
Proof.
  revert a. induction n as [|n IH]; intros a; simpl; constructor; [apply IH|].
  apply Forall_forall. intros x Hx%elem_of_seq. lia.
Qed.

Lemma constant_fst_StronglySorted (idx : nat) (ps : list nat) :
  StronglySorted le (fst <$> (pair idx <$> ps)).
Proof.
  induction ps as [|p ps IH]; simpl; constructor; [done|].
  apply Forall_forall. intros x (e & -> & (j & -> & _)%list_elem_of_fmap)%list_elem_of_fmap.
  done.
Qed.

Lemma edges_of_cons idx con items ps pss :
  edges_of ((idx, con) :: items) (ps :: pss) = (pair idx <$> ps) ++ edges_of items pss.
Proof. reflexivity. Qed.

Lemma edges_of_fst_elem items pss i j :
  (i, j) ∈ edges_of items pss → i ∈ fst <$> items.
Proof.
  intros (k & con & _ & Hk & _)%edges_of_elem.
  apply list_elem_of_fmap. exists (i, con). split; [done|].
  apply list_elem_of_lookup. by exists k.
Qed.

Lemma edges_of_fst_sorted items pss :
  StronglySorted le (fst <$> items) →
  StronglySorted le (fst <$> edges_of items pss).
Proof.
  revert pss. induction items as [|[idx con] items IH]; intros pss Hsorted.
  - constructor.
  - destruct pss as [|ps pss]; [constructor|].
    rewrite edges_of_cons, fmap_app.
    simpl in Hsorted. apply StronglySorted_cons in Hsorted as [Hle Hsorted].
    apply StronglySorted_app_2; [|apply constant_fst_StronglySorted|by apply IH].
    intros x1 x2 (e1 & -> & (j1 & -> & _)%list_elem_of_fmap)%list_elem_of_fmap
      ([i2 j2] & -> & Hin%edges_of_fst_elem)%list_elem_of_fmap.
    simpl. rewrite Forall_forall in Hle. by apply Hle.
Qed.

(** X5.  The edge rows come grouped by child, children in enumeration order:
    down the table the [id_1] column never decreases. *)
Theorem edge_rows_sorted_by_child concept_eq
    (concept_list : list Concept) (m : list (nat * nat)) :
  maps_to_list concept_eq concept_list = inr m →
  df_column (concept_relationship_df m) "id_1" = Some (Int <$> m.*1) ∧
  StronglySorted le (m.*1).
Proof.
  intros (pss & _ & ->)%maps_to_list_inr. split; [done|].
  apply edges_of_fst_sorted. rewrite enumerate_fst. apply seq_StronglySorted.
Qed.

Lemma edge_rows_sorted_by_child_chain :
  df_column (concept_relationship_df [(1, 0); (2, 1)]) "id_1"
    = Some (Int <$> [(1, 0); (2, 1)].*1) ∧
  StronglySorted le ([(1, 0); (2, 1)].*1).
Proof.
  apply (edge_rows_sorted_by_child object_eq Sample.chain [(1, 0); (2, 1)]).
  reflexivity.
Defined.

Lemma filter_none {A} (P : A → Prop) `{∀ x, Decision (P x)} (l : list A) :
  (∀ x, x ∈ l → ¬ P x) → filter P l = [].
Proof.
  induction l as [|x l IH]; intros Hnone; [done|].
  rewrite filter_cons_False by (apply Hnone; left).
  apply IH. intros y Hy. apply Hnone. by right.
Qed.

Lemma filter_all {A} (P : A → Prop) `{∀ x, Decision (P x)} (l : list A) :
  (∀ x, x ∈ l → P x) → filter P l = l.
Proof.
  induction l as [|x l IH]; intros Hall; [done|].
  rewrite filter_cons_True by (apply Hall; left).
  f_equal. apply IH. intros y Hy. apply Hall. by right.
Qed.

Lemma edges_of_filter items pss k i con ps :
  NoDup (fst <$> items) →
  items !! k = Some (i, con) → pss !! k = Some ps →
  filter (λ e : nat * nat, e.1 = i) (edges_of items pss) = pair i <$> ps.
Proof.
  revert pss k. induction items as [|[idx con'] items IH]; intros pss k Hnodup Hk Hps;
    [done|].
  destruct pss as [|ps' pss]; [done|].
  simpl in Hnodup. apply NoDup_cons in Hnodup as [Hfresh Hnodup].
  rewrite edges_of_cons, filter_app. destruct k as [|k]; simpl in Hk, Hps.
  - injection Hk as -> ->. injection Hps as ->.
    rewrite filter_all, filter_none; [by rewrite app_nil_r| |].
    + intros [i' j'] Hin%edges_of_fst_elem. simpl. by intros ->.
    + by intros e (j & -> & _)%list_elem_of_fmap.
  - rewrite filter_none, (IH pss k); [done..|].
    intros e (j & -> & _)%list_elem_of_fmap. simpl. intros ->.
    apply Hfresh. apply list_elem_of_fmap. exists (i, con). split; [done|].
    apply list_elem_of_lookup. by exists k.
Qed.

(** X6.  The rows of one child: the rows whose [id_1] is [i] are, in the order
    of its upper neighbours, one row per upper neighbour of the [i]-th
    concept, a neighbour listed twice giving two rows. *)
Theorem edge_rows_of_each_concept concept_eq
    (concept_list : list Concept) (m : list (nat * nat)) (i : nat) (con : Concept) :
  maps_to_list concept_eq concept_list = inr m →
  concept_list !! i = Some con →
  ∃ indexes,
    Forall2 (λ p j, list_index concept_eq concept_list p = inr j)
      (upper_neighbors con) indexes ∧
    filter (λ e : nat * nat, e.1 = i) m = pair i <$> indexes.
Proof.
  intros (pss & Hall & ->)%maps_to_list_inr Hcon.
  destruct (Forall2_lookup_l _ _ _ _ _ Hall Hcon) as (ps & Hps & Hres).
  exists ps. split; [by apply parent_concept_indexes_inr|].
  apply (edges_of_filter _ _ i i con); [apply enumerate_fst_NoDup| |done].
  by apply enumerate_lookup.
Qed.

Lemma edge_rows_of_each_concept_chain :
  ∃ indexes,
    Forall2 (λ p j, list_index object_eq Sample.chain p = inr j)
      (upper_neighbors Sample.bottom) indexes ∧
    filter (λ e : nat * nat, e.1 = 2) [(1, 0); (2, 1)] = pair 2 <$> indexes.
Proof.
  apply (edge_rows_of_each_concept object_eq Sample.chain [(1, 0); (2, 1)] 2 Sample.bottom);
    reflexivity.
Defined.

(** ** Self-references and growing lattices *)

(** X7.  Self-loops are not filtered: when a concept, enumerated once at
    position [i], has itself among its upper neighbours, a successful run
    has the row [(i, "Is a", i)]. *)
Theorem self_reference_gives_self_loop concept_eq
    (concept_list : list Concept) (m : list (nat * nat)) (i : nat) (con p : Concept) :
  maps_to_list concept_eq concept_list = inr m →
  NoDup (ids concept_list) →
  concept_list !! i = Some con →
  p ∈ upper_neighbors con → obj_id p = obj_id con →
  (∀ x, x ∈ concept_list → py_eq concept_eq x p = true → obj_id x = obj_id p) →
  (i, i) ∈ m ∧ [Int i; Str "Is a"; Int i] ∈ df_rows (concept_relationship_df m).
Proof.
  intros Hm Hnodup Hcon Hp Hid Heq.
  assert ((i, i) ∈ m) as Hin.
  { apply (maps_to_list_elem _ _ _ _ _ Hm). exists con, p. split_and!; [done..|].
    by apply (resolves_to_position concept_eq concept_list i con p). }
  split; [done|]. rewrite concept_relationship_df_rows.
  by apply (list_elem_of_fmap_2 (λ e : nat * nat, [Int e.1; Str "Is a"; Int e.2]) m (i, i)).
Qed.

Lemma self_reference_gives_self_loop_sample :
  (1, 1) ∈ [(1, 1)] ∧
  [Int 1; Str "Is a"; Int 1] ∈ df_rows (concept_relationship_df [(1, 1)]).
Proof.
  apply (self_reference_gives_self_loop object_eq
           [Sample.top; mkConcept 400 ["a"] [] [mkConcept 400 ["a"] [] []]]
           [(1, 1)] 1
           (mkConcept 400 ["a"] [] [mkConcept 400 ["a"] [] []])
           (mkConcept 400 ["a"] [] [])).
  - reflexivity.
  - by apply (bool_decide_unpack (NoDup (ids
        [Sample.top; mkConcept 400 ["a"] [] [mkConcept 400 ["a"] [] []]]))).
  - reflexivity.
  - left.
  - reflexivity.
  - apply (proj1 (Forall_forall
      (λ x, py_eq object_eq x (mkConcept 400 ["a"] [] []) = true →
            obj_id x = obj_id (mkConcept 400 ["a"] [] []))
      [Sample.top; mkConcept 400 ["a"] [] [mkConcept 400 ["a"] [] []]])).
    by apply (bool_decide_unpack (Forall
      (λ x, py_eq object_eq x (mkConcept 400 ["a"] [] []) = true →
            obj_id x = obj_id (mkConcept 400 ["a"] [] []))
      [Sample.top; mkConcept 400 ["a"] [] [mkConcept 400 ["a"] [] []]])).
Defined.

Lemma list_index_app_l concept_eq (l ext : list Concept) (p : Concept) (j : nat) :
  list_index concept_eq l p = inr j → list_index concept_eq (l ++ ext) p = inr j.
Proof.
  revert j. induction l as [|x l IH]; intros j; simpl; [done|].
  destruct (py_eq concept_eq x p); [done|].
  unfold result_bind. destruct (list_index concept_eq l p) as [e|k]; [done|].
  intros [= <-]. by rewrite (IH k).
Qed.

Lemma parent_concept_indexes_app_l concept_eq (l ext : list Concept) con ps :
  parent_concept_indexes concept_eq l con = inr ps →
  parent_concept_indexes concept_eq (l ++ ext) con = inr ps.
Proof.
  rewrite !parent_concept_indexes_inr. intros Hall.
  eapply Forall2_impl; [exact Hall|]. intros p j. apply list_index_app_l.
Qed.

(** X8.  Concepts enumerated after the others leave the export of the others as
    it was: the names and the edge rows of the shorter enumeration are the
    first names and the first edge rows of the longer one, under the same
    ids. *)
Theorem appended_concepts_keep_earlier_rows concept_eq
    (concept_list ext : list Concept) (m m' : list (nat * nat)) :
  maps_to_list concept_eq concept_list = inr m →
  maps_to_list concept_eq (concept_list ++ ext) = inr m' →
  m `prefix_of` m' ∧
  df_rows (concept_relationship_df m) `prefix_of` df_rows (concept_relationship_df m') ∧
  df_rows (concept_df (concept_names concept_list))
    `prefix_of` df_rows (concept_df (concept_names (concept_list ++ ext))).
Proof.
  intros (pss & Hall & ->)%maps_to_list_inr (pss' & Hall' & ->)%maps_to_list_inr.
  apply Forall2_app_inv_l in Hall' as (k1 & k2 & Hk1 & Hk2 & ->).
  assert (k1 = pss) as ->.
  { eapply Forall2_unique; [exact Hk1| |].
    - eapply Forall2_impl; [exact Hall|]. intros con ps.
      apply parent_concept_indexes_app_l.
    - intros con ps1 ps2 H1 H2. simpl in *. congruence. }
  assert (edges_of (enumerate concept_list) pss
          `prefix_of` edges_of (enumerate (concept_list ++ ext)) (pss ++ k2)) as Hprefix.
  { unfold edges_of, enumerate. rewrite imap_app, zip_with_app, join_app.
    - by apply prefix_app_r.
    - rewrite length_imap. by eapply Forall2_length. }
  split_and!; [done| |].
  - destruct Hprefix as [rest ->]. rewrite !concept_relationship_df_rows, fmap_app.
    by apply prefix_app_r.
  - rewrite !concept_df_rows. unfold concept_names.
    rewrite fmap_app, length_app, !length_fmap.
    rewrite seq_app, zip_with_app by by rewrite length_seq, length_fmap.
    by apply prefix_app_r.
Qed.

Lemma appended_concepts_keep_earlier_rows_chain :
  [(1, 0)] `prefix_of` [(1, 0); (2, 1)] ∧
  df_rows (concept_relationship_df [(1, 0)])
    `prefix_of` df_rows (concept_relationship_df [(1, 0); (2, 1)]) ∧
  df_rows (concept_df (concept_names [Sample.top; Sample.middle]))
    `prefix_of` df_rows (concept_df (concept_names ([Sample.top; Sample.middle] ++ [Sample.bottom]))).
Proof.
  apply (appended_concepts_keep_earlier_rows object_eq
           [Sample.top; Sample.middle] [Sample.bottom] [(1, 0)] [(1, 0); (2, 1)]);
    reflexivity.
Defined.
